(** * ApkSign: locating and splicing the APK signing block of a ZIP container

    A shallow embedding of [editor/signv2/apk.go]: [NewApkSign] (the locator),
    [VerifyV2] (the guard of the signed-payload operation) and
    [InjectBeforeCD] (the splicer), together with the Go primitives they are
    written with: slice expressions, [copy], [make], the little-endian readers
    of [encoding/binary] and fixed-width integer conversions.

    Go run-time panics are values of the [go] monad, so that "the function
    panics" is a statement like any other. *)

From Stdlib Require Import ZArith Lia List.
From Stdlib Require Import Strings.String Strings.Byte.
From coqutil Require Import Byte Word.LittleEndianList Z.bitblast.
From stdpp Require Import base list option.

Local Open Scope Z_scope.

(** ** Go values and run-time panics *)

#[global] Instance byte_eq_decision : EqDecision byte := Byte.byte_eq_dec.

Inductive runtime_error : Type :=
| SliceBoundsOutOfRange
| IndexOutOfRange
| MakesliceLenOutOfRange.

Inductive go (A : Type) : Type :=
| ret (a : A)
| panic (e : runtime_error).
Arguments ret {A} a.
Arguments panic {A} e.

Definition go_bind {A B : Type} (f : A -> go B) (m : go A) : go B :=
  match m with
  | ret a => f a
  | panic e => panic e
  end.

#[global] Instance go_mbind : MBind go := @go_bind.
#[global] Instance go_mret : MRet go := @ret.

(** Conversions between the integer types the source uses.  A value of an
    integer type is the mathematical integer it denotes. *)
Definition uint16 (x : Z) : Z := x mod 2 ^ 16.
Definition uint32 (x : Z) : Z := x mod 2 ^ 32.
Definition uint64 (x : Z) : Z := x mod 2 ^ 64.
Definition int64 (x : Z) : Z := (x + 2 ^ 63) mod 2 ^ 64 - 2 ^ 63.

Definition len {A : Type} (s : list A) : Z := Z.of_nat (length s).

(** [s[lo:hi]]: panics unless [0 <= lo <= hi <= cap(s)]; every slice sliced
    here has its capacity equal to its length, or is sliced within its
    length. *)
Definition slice (s : list byte) (lo hi : Z) : go (list byte) :=
  if (0 <=? lo) && (lo <=? hi) && (hi <=? len s)
  then ret (take (Z.to_nat (hi - lo)) (drop (Z.to_nat lo) s))
  else panic SliceBoundsOutOfRange.

(** [s[lo:]] *)
Definition slice_from (s : list byte) (lo : Z) : go (list byte) :=
  slice s lo (len s).

(** The runtime's allocation limit on 64-bit platforms. *)
Definition maxAlloc : Z := 2 ^ 48.

(** [make([]byte, n)] for [n] of a 64-bit integer type: the length is taken
    as an [int]; a negative or oversized length panics. *)
Definition make (n : Z) : go (list byte) :=
  let n := int64 n in
  if (0 <=? n) && (n <=? maxAlloc)
  then ret (replicate (Z.to_nat n) "000"%byte)
  else panic MakesliceLenOutOfRange.

(** [copy(dst, src)]: the first [min(len(dst), len(src))] elements of [dst]
    are overwritten; the result is the new content of [dst]. *)
Definition copy (dst src : list byte) : list byte :=
  let n := Nat.min (length dst) (length src) in
  take n src ++ drop n dst.

(** [copy(dst[lo:hi], src)] seen from [dst]: the slice aliases [dst], and
    is evaluated before the expression [src]. *)
Definition copy_into (dst : list byte) (lo hi : Z) (src : go (list byte))
  : go (list byte) :=
  d ← slice dst lo hi;
  s ← src;
  mret (take (Z.to_nat lo) dst ++ copy d s ++ drop (Z.to_nat hi) dst).

(** [encoding/binary.LittleEndian] *)
Definition Uint16 (b : list byte) : go Z :=
  match b with
  | b0 :: b1 :: _ =>
      ret (Z.lor (byte.unsigned b0) (Z.shiftl (byte.unsigned b1) 8))
  | _ => panic IndexOutOfRange
  end.

Definition Uint32 (b : list byte) : go Z :=
  match b with
  | b0 :: b1 :: b2 :: b3 :: _ =>
      ret (Z.lor (Z.lor (Z.lor (byte.unsigned b0)
                               (Z.shiftl (byte.unsigned b1) 8))
                        (Z.shiftl (byte.unsigned b2) 16))
                 (Z.shiftl (byte.unsigned b3) 24))
  | _ => panic IndexOutOfRange
  end.

Definition Uint64 (b : list byte) : go Z :=
  match b with
  | b0 :: b1 :: b2 :: b3 :: b4 :: b5 :: b6 :: b7 :: _ =>
      ret (Z.lor (Z.lor (Z.lor (Z.lor (Z.lor (Z.lor (Z.lor
             (byte.unsigned b0)
             (Z.shiftl (byte.unsigned b1) 8))
             (Z.shiftl (byte.unsigned b2) 16))
             (Z.shiftl (byte.unsigned b3) 24))
             (Z.shiftl (byte.unsigned b4) 32))
             (Z.shiftl (byte.unsigned b5) 40))
             (Z.shiftl (byte.unsigned b6) 48))
             (Z.shiftl (byte.unsigned b7) 56))
  | _ => panic IndexOutOfRange
  end.

(** [PutUint32(b, v)]: the new content of [b]. *)
Definition PutUint32 (b : list byte) (v : Z) : go (list byte) :=
  match b with
  | _ :: _ :: _ :: _ :: rest =>
      ret (byte.of_Z v :: byte.of_Z (Z.shiftr v 8)
           :: byte.of_Z (Z.shiftr v 16) :: byte.of_Z (Z.shiftr v 24) :: rest)
  | _ => panic IndexOutOfRange
  end.

(** [strings.HasSuffix] *)
Definition HasSuffix (s suffix : string) : bool :=
  (String.length suffix <=? String.length s)%nat
  && String.eqb
       (substring (String.length s - String.length suffix)
                  (String.length suffix) s)
       suffix.

(** ** Errors

    Every [errors.New] of the file makes a value of its own; an error made
    by a collaborator (archive/zip, the v2 block parser and verifier) is a
    different value, whatever its text. *)
Inductive error : Type :=
| ErrTooSmall
| ErrNotAZip
| ErrCDNotAdjacent
| ErrNotV2Signed
| ErrCollaborator (msg : string).

Definition Error (e : error) : string :=
  match e with
  | ErrTooSmall => "input is too small to be a zip"
  | ErrNotAZip => "input is not a zip"
  | ErrCDNotAdjacent => "CD not adjacent to EOCD"
  | ErrNotV2Signed => "v2 verification attempted on non-v2-signed file"
  | ErrCollaborator msg => msg
  end.

(** ** The descriptor *)

Record ApkSign : Type := mkApkSign {
  IsAPK : bool;
  IsV2Signed : bool;
  raw : list byte;
  size : Z;
  eocdOffset : Z;
  cdOffset : Z;
  asv2Offset : Z;
  rawASv2 : list byte
}.

Definition set_offsets (z : ApkSign) (cd eocd : Z) : ApkSign :=
  mkApkSign (IsAPK z) (IsV2Signed z) (raw z) (size z) eocd cd
            (asv2Offset z) (rawASv2 z).

Definition set_IsAPK (z : ApkSign) (b : bool) : ApkSign :=
  mkApkSign b (IsV2Signed z) (raw z) (size z) (eocdOffset z) (cdOffset z)
            (asv2Offset z) (rawASv2 z).

Definition set_asv2 (z : ApkSign) (off : Z) (payload : list byte) : ApkSign :=
  mkApkSign (IsAPK z) (IsV2Signed z) (raw z) (size z) (eocdOffset z)
            (cdOffset z) off payload.

Definition set_IsV2Signed (z : ApkSign) (b : bool) : ApkSign :=
  mkApkSign (IsAPK z) b (raw z) (size z) (eocdOffset z) (cdOffset z)
            (asv2Offset z) (rawASv2 z).

(** What a call returns: [(z, nil)] or [(nil, err)]. *)
Inductive returned : Type :=
| Descriptor (z : ApkSign)
| Failure (e : error).

(** What an iteration of the scan does: [continue], or [return]. *)
Inductive control : Type :=
| Continue
| Return (r : returned).

Definition EOCD_MAGIC : Z := 0x06054b50.
Definition CD_MAGIC : Z := 0x02014b50.
Definition APK_SIG_BLOCK_42 : list byte :=
  Eval cbv in list_byte_of_string "APK Sig Block 42".

(** ** NewApkSign *)

Module Locator.

(** [archive/zip.NewReader] over the bytes: an error, or the names of the
    entries of [r.File]. *)
Definition zip_reader : Type := list byte -> Z -> string + list string.

Record names_seen : Type := mkSeen {
  hasClassesDex : bool;
  hasAndroidManifestXML : bool;
  hasResourcesARSC : bool;
  hasSF : bool;
  hasRSA : bool
}.

(** One iteration of [for _, f := range r.File]. *)
Definition visit (s : names_seen) (name : string) : names_seen :=
  let s :=
    if String.eqb name "classes.dex" then
      mkSeen true (hasAndroidManifestXML s) (hasResourcesARSC s)
             (hasSF s) (hasRSA s)
    else if String.eqb name "AndroidManifest.xml" then
      mkSeen (hasClassesDex s) true (hasResourcesARSC s) (hasSF s) (hasRSA s)
    else if String.eqb name "resources.arsc" then
      mkSeen (hasClassesDex s) (hasAndroidManifestXML s) true
             (hasSF s) (hasRSA s)
    else s in
  mkSeen (hasClassesDex s) (hasAndroidManifestXML s) (hasResourcesARSC s)
         (hasSF s || HasSuffix name ".SF")
         (hasRSA s || HasSuffix name ".RSA" || HasSuffix name ".DSA").

Definition is_apk (names : list string) : bool :=
  let s := foldl visit (mkSeen false false false false false) names in
  hasClassesDex s && hasAndroidManifestXML s && hasResourcesARSC s.

(** Lines 122-148: the signing block in front of the central directory. *)
Definition signing_block (z : ApkSign) : go returned :=
  let start := int64 (int64 (cdOffset z) - 16) in
  magic ← slice (raw z) start (cdOffset z);
  if negb (bool_decide (magic = APK_SIG_BLOCK_42)) then
    mret (Descriptor z)
  else
    let start := int64 (uint64 (uint64 (cdOffset z - 16) - 8)) in
    b64 ← slice (raw z) start (int64 (start + 8));
    postSize ← Uint64 b64;
    let start := int64 (uint64 (uint64 (cdOffset z - postSize) - 8)) in
    b64 ← slice (raw z) start (int64 (start + 8));
    preSize ← Uint64 b64;
    z ← (if preSize =? postSize then
           let asv2 := uint64 (uint64 (cdOffset z - postSize) - 8) in
           payload ← make (uint64 (preSize - 24));
           let start := int64 (uint64 (asv2 + 8)) in
           src ← slice_from (raw z) start;
           mret (set_asv2 z asv2 (copy payload src))
         else mret z);
    (* log.Println of the three offsets: no effect on what is returned *)
    mret (Descriptor (set_IsV2Signed z (0 <? asv2Offset z))).

(** Lines 65-149: the body of the scan loop at comment length [i]. *)
Definition scan_body (zip_NewReader : zip_reader) (z : ApkSign) (i : Z)
  : go control :=
  let start := int64 (size z - 22 - int64 i) in
  b ← slice (raw z) start (int64 (start + 22));
  b4 ← slice b 0 4;
  sig ← Uint32 b4;
  if sig =? EOCD_MAGIC then
    b2022 ← slice b 20 22;
    commentLen ← Uint16 b2022;
    if negb (uint16 i =? commentLen) then mret Continue
    else
      let candidateEOCD := uint64 (uint64 (uint64 (size z) - 22) - uint64 i) in
      b1620 ← slice b 16 20;
      eocdCD ← Uint32 b1620;
      b1216 ← slice b 12 16;
      eocdCDLen ← Uint32 b1216;
      b2 ← slice_from (raw z) (int64 eocdCD);
      sig2 ← Uint32 b2;
      if negb (sig2 =? CD_MAGIC) then mret Continue
      else if negb (uint64 (uint64 eocdCD + uint64 eocdCDLen) =? candidateEOCD)
      then mret (Return (Failure ErrCDNotAdjacent))
      else
        let z := set_offsets z (uint64 eocdCD) candidateEOCD in
        match zip_NewReader (raw z) (size z) with
        | inl msg => mret (Return (Failure (ErrCollaborator msg)))
        | inr names =>
            let z := set_IsAPK z (is_apk names) in
            r ← signing_block z;
            mret (Return r)
        end
  else mret Continue.

(** [for i := uint32(0); i < 65535; i++]: [n] iterations are left, the next
    one at [i]; falling out of the loop is "input is not a zip". *)
Fixpoint scan (zip_NewReader : zip_reader) (z : ApkSign) (n : nat) (i : Z)
  : go returned :=
  match n with
  | O => mret (Failure ErrNotAZip)
  | S n' =>
      c ← scan_body zip_NewReader z i;
      match c with
      | Continue => scan zip_NewReader z n' (uint32 (i + 1))
      | Return r => mret r
      end
  end.

(** The number of values [i] with [0 <= i < 65535]. *)
Definition scan_iterations : nat := Z.to_nat 65535.

Definition NewApkSign (zip_NewReader : zip_reader) (buf : list byte)
  : go returned :=
  let size := int64 (len buf) in
  let raw := copy (replicate (Z.to_nat size) "000"%byte) buf in
  let z := mkApkSign false false raw size 0 0 0 [] in
  if size <? 22 then mret (Failure ErrTooSmall)
  else scan zip_NewReader z scan_iterations 0.

End Locator.

(** ** VerifyV2 *)

Module Extractor.

(** The collaborators of [VerifyV2], which live in other files of the
    package: [ParseV2Block] returns a block or an error, [Verify] receives
    the descriptor by pointer and returns an error or nil. *)
Section Collaborators.
Context {V2Block : Type}.
Variable ParseV2Block : list byte -> string + V2Block.
Variable Verify : V2Block -> ApkSign -> ApkSign * option string.

(** The descriptor after the call, and the error returned ([None] is
    nil). *)
Definition VerifyV2 (apkSign : ApkSign) : ApkSign * option error :=
  if negb (IsV2Signed apkSign) then (apkSign, Some ErrNotV2Signed)
  else
    match ParseV2Block (rawASv2 apkSign) with
    | inl msg => (apkSign, Some (ErrCollaborator msg))
    | inr v2 =>
        let '(apkSign', err) := Verify v2 apkSign in
        (apkSign', ErrCollaborator <$> err)
    end.
End Collaborators.

End Extractor.

(** ** InjectBeforeCD *)

Module Injector.

Definition InjectBeforeCD (apkSign : ApkSign) (data : list byte)
  : go (list byte) :=
  let newSize := int64 (len (raw apkSign)) in
  let endOfFilesSection := cdOffset apkSign in
  let '(endOfFilesSection, newSize) :=
    if 0 <? asv2Offset apkSign then
      (asv2Offset apkSign,
       int64 (newSize
              - int64 (uint64 (cdOffset apkSign - asv2Offset apkSign))))
    else (endOfFilesSection, newSize) in
  let newSize := int64 (newSize + int64 (len data)) in
  newEocd ← make (int64 (size apkSign - int64 (eocdOffset apkSign)));
  src ← slice_from (raw apkSign) (eocdOffset apkSign);
  let newEocd := copy newEocd src in
  field ← slice_from newEocd 16;
  field ← PutUint32 field
            (uint32 (uint64 (endOfFilesSection + uint64 (len data))));
  let newEocd := take 16 newEocd ++ field in
  (* allocate & copy in the data *)
  ret0 ← make newSize;
  ret1 ← copy_into ret0 0 endOfFilesSection
           (slice (raw apkSign) 0 endOfFilesSection);
  let dataEnd := uint64 (endOfFilesSection + uint64 (len data)) in
  ret2 ← copy_into ret1 endOfFilesSection dataEnd (mret data);
  ret3 ← copy_into ret2 dataEnd (len ret2)
           (slice (raw apkSign) (cdOffset apkSign) (eocdOffset apkSign));
  let eocdStart :=
    uint64 (dataEnd + uint64 (eocdOffset apkSign - cdOffset apkSign)) in
  copy_into ret3 eocdStart (len ret3) (mret newEocd).

End Injector.

(** ** Bytes *)

Module Accessor.

(** [make] with the length of a slice that exists cannot panic. *)
Definition Bytes (apkSign : ApkSign) : list byte :=
  let ret0 := replicate (length (raw apkSign)) "000"%byte in
  copy ret0 (raw apkSign).

End Accessor.

(** ** SignV2 *)

Module Signer.

(** The collaborators of [SignV2]: [sk.Resolve()] works on the key behind
    the pointer and returns an error or nil; [v2.Sign] returns the bytes and
    an error or nil. *)
Section Collaborators.
Context {SigningCert : Type}.
Variable Resolve : SigningCert -> SigningCert * option string.
Variable Sign : ApkSign -> list SigningCert -> list byte * option string.

(** [for _, sk := range keys]: the keys after the loop, and the error that
    ended it. *)
Fixpoint resolve_keys (keys : list SigningCert)
  : list SigningCert * option string :=
  match keys with
  | [] => ([], None)
  | sk :: rest =>
      let '(sk', err) := Resolve sk in
      match err with
      | Some msg => (sk' :: rest, Some msg)
      | None =>
          let '(rest', err') := resolve_keys rest in (sk' :: rest', err')
      end
  end.

(** The keys after the call, and the pair it returns. *)
Definition SignV2 (apkSign : ApkSign) (keys : list SigningCert)
  : list SigningCert * (list byte * option error) :=
  let '(keys', err) := resolve_keys keys in
  match err with
  | Some msg => (keys', ([], Some (ErrCollaborator msg)))
  | None =>
      let '(out, err) := Sign apkSign keys' in
      (keys', (out, ErrCollaborator <$> err))
  end.
End Collaborators.

End Signer.

Import Locator Extractor Injector.
Import Accessor Signer.

(** ** Reading a buffer at absolute offsets

    The statements below speak of "the [n] bytes at offset [off]" and of the
    little-endian number they hold. *)

Definition sub (s : list byte) (off n : Z) : list byte :=
  take (Z.to_nat n) (drop (Z.to_nat off) s).
Definition le_at (s : list byte) (off n : Z) : Z := le_combine (sub s off n).

(** The descriptor [NewApkSign] starts from, and the one it hands to the
    signing-block step once a window is accepted. *)
Definition fresh (buf : list byte) : ApkSign :=
  mkApkSign false false buf (len buf) 0 0 0 [].
Definition located (buf : list byte) (apk : bool) (cd eocd : Z) : ApkSign :=
  mkApkSign apk false buf (len buf) eocd cd 0 [].

(** [signing_block] and [scan_body] once more, over absolute reads of the
    buffer and with the bounds of every slice expression spelled out; they
    are proved equal to the definitions above ([signing_block_eq],
    [scan_body_eq]) and are what the case analyses go through. *)
Definition block_outcome (buf : list byte) (apk : bool) (cd eocd : Z)
  : go returned :=
  if (cd <? 16) || (len buf <? cd) then panic SliceBoundsOutOfRange
  else if negb (bool_decide (sub buf (cd - 16) 16 = APK_SIG_BLOCK_42)) then
    ret (Descriptor (located buf apk cd eocd))
  else if cd <? 24 then panic SliceBoundsOutOfRange
  else
    let post := le_at buf (cd - 24) 8 in
    let a := uint64 (cd - post - 8) in
    if (2 ^ 63 <=? a) || (len buf <? a + 8) then panic SliceBoundsOutOfRange
    else
      let pre := le_at buf a 8 in
      if pre =? post then
        if (pre <? 24) || (maxAlloc + 24 <? pre)
        then panic MakesliceLenOutOfRange
        else ret (Descriptor
                    (mkApkSign apk (0 <? a) buf (len buf) eocd cd a
                       (copy (replicate (Z.to_nat (pre - 24)) "000"%byte)
                             (sub buf (a + 8) (len buf - (a + 8))))))
      else ret (Descriptor (located buf apk cd eocd)).

Definition window_outcome (zip_NewReader : zip_reader) (buf : list byte)
    (i : Z) : go control :=
  let e := len buf - 22 - i in
  if negb (le_at buf e 4 =? EOCD_MAGIC) then ret Continue
  else if negb (le_at buf (e + 20) 2 =? i) then ret Continue
  else
    let cd := le_at buf (e + 16) 4 in
    if len buf <? cd then panic SliceBoundsOutOfRange
    else if len buf <? cd + 4 then panic IndexOutOfRange
    else if negb (le_at buf cd 4 =? CD_MAGIC) then ret Continue
    else if negb (cd + le_at buf (e + 12) 4 =? e)
    then ret (Return (Failure ErrCDNotAdjacent))
    else
      match zip_NewReader buf (len buf) with
      | inl msg => ret (Return (Failure (ErrCollaborator msg)))
      | inr names =>
          r ← block_outcome buf (is_apk names) cd e; mret (Return r)
      end.

(** ** The 22-byte window at comment length [i]

    [eocd_at buf i] is where the window starts; the fields are those of an
    EOCD record: CD length at bytes 12..15, CD offset at 16..19, comment
    length at 20..21. *)
Definition eocd_at (buf : list byte) (i : Z) : Z := len buf - 22 - i.
Definition declared_comment_len (buf : list byte) (i : Z) : Z :=
  le_at buf (eocd_at buf i + 20) 2.
Definition declared_cd (buf : list byte) (i : Z) : Z :=
  le_at buf (eocd_at buf i + 16) 4.
Definition declared_cd_len (buf : list byte) (i : Z) : Z :=
  le_at buf (eocd_at buf i + 12) 4.
Definition has_eocd_magic (buf : list byte) (i : Z) : Prop :=
  le_at buf (eocd_at buf i) 4 = EOCD_MAGIC.
(** The comment length is not echoed, or the four bytes at the declared CD
    offset are not the CD magic. *)
Definition fails_corroboration (buf : list byte) (i : Z) : Prop :=
  declared_comment_len buf i <> i \/
  (declared_cd buf i + 4 <= len buf /\
   le_at buf (declared_cd buf i) 4 <> CD_MAGIC).
Definition corroborated (buf : list byte) (i : Z) : Prop :=
  has_eocd_magic buf i /\ declared_comment_len buf i = i /\
  declared_cd buf i + 4 <= len buf /\
  le_at buf (declared_cd buf i) 4 = CD_MAGIC.
Definition passed_over (buf : list byte) (i : Z) : Prop :=
  ~ has_eocd_magic buf i \/ fails_corroboration buf i.
Definition adjacent (buf : list byte) (i : Z) : Prop :=
  declared_cd buf i + declared_cd_len buf i = eocd_at buf i.

(** ** The layout of an injected archive, in the words of its description *)

Definition insertion_point (z : ApkSign) : Z :=
  if 0 <? asv2Offset z then asv2Offset z else cdOffset z.
(** The bytes of the old signing block, which the injection drops. *)
Definition discarded (z : ApkSign) : Z :=
  if 0 <? asv2Offset z then cdOffset z - asv2Offset z else 0.
(** An EOCD block with bytes 16..19 replaced by [v], little-endian. *)
Definition patched_eocd (block : list byte) (v : Z) : list byte :=
  take 16 block ++ le_split 4 v ++ drop 20 block.
Definition spliced (z : ApkSign) (data : list byte) : list byte :=
  sub (raw z) 0 (insertion_point z) ++ data
  ++ sub (raw z) (cdOffset z) (eocdOffset z - cdOffset z)
  ++ patched_eocd (sub (raw z) (eocdOffset z) (len (raw z) - eocdOffset z))
       (insertion_point z + len data).
Definition valid_offsets (z : ApkSign) : Prop :=
  size z = len (raw z) /\
  0 <= asv2Offset z <= cdOffset z /\
  cdOffset z <= eocdOffset z /\
  eocdOffset z + 22 <= len (raw z).

(** A size-matched signing block around [inner]: size, content, size,
    magic; the size counts everything after the first field. *)
Definition signing_block_of (inner : list byte) : list byte :=
  le_split 8 (len inner + 24) ++ inner ++ le_split 8 (len inner + 24)
  ++ APK_SIG_BLOCK_42.

(** ** Sample archives *)

(** A reader that finds no entry, as for an EOCD that declares none. *)
Definition no_entries : zip_reader := fun _ _ => inr [].
Definition eocd_header (cdLen cdOff commentLen : Z) : list byte :=
  le_split 4 EOCD_MAGIC ++ replicate 8 "000"%byte ++ le_split 4 cdLen
  ++ le_split 4 cdOff ++ le_split 2 commentLen.
Definition cd_stub : list byte := le_split 4 CD_MAGIC.

(** The 22-byte comment of the EOCD is itself an EOCD header, which echoes
    its comment length (0) and declares a CD at offset 24. *)
Definition spoofed_archive : list byte :=
  replicate 16 "000"%byte ++ cd_stub ++ eocd_header 4 16 22
  ++ eocd_header 0 24 0.
(** The EOCD declares a CD of 3 bytes at 16; the EOCD is at 20. *)
Definition detached_archive : list byte :=
  replicate 16 "000"%byte ++ cd_stub ++ eocd_header 3 16 0.
(** The signing block is the first thing in the file. *)
Definition block_at_zero : list byte :=
  signing_block_of [] ++ cd_stub ++ eocd_header 4 32 0.
Definition signed_archive : list byte :=
  replicate 5 "000"%byte ++ signing_block_of ["001"%byte] ++ cd_stub
  ++ eocd_header 4 38 2 ++ ["007"%byte; "007"%byte].
Definition signed_descriptor : ApkSign :=
  mkApkSign false true signed_archive 66 42 38 5 ["001"%byte].
(** An EOCD with the longest comment its 16-bit length field allows. *)
Definition longest_comment : list byte :=
  replicate (Z.to_nat 65535) "000"%byte.
Definition longest_comment_head : list byte :=
  replicate 16 "000"%byte ++ cd_stub ++ eocd_header 4 16 65535.
Definition longest_comment_archive : list byte :=
  longest_comment_head ++ longest_comment.
(** Size fields of 16 (less than 24) and of 1000 (more than the CD offset). *)
Definition undersized_block_archive : list byte :=
  le_split 8 16 ++ APK_SIG_BLOCK_42 ++ cd_stub ++ eocd_header 4 24 0.
Definition oversized_block_archive : list byte :=
  le_split 8 1000 ++ APK_SIG_BLOCK_42 ++ cd_stub ++ eocd_header 4 24 0.
(** Collaborators of [VerifyV2] that accept everything. *)
Definition parse_any : list byte -> string + unit := fun _ => inr tt.
Definition verify_any : unit -> ApkSign -> ApkSign * option string :=
  fun _ z => (z, None).
(** An archive without a signing block, and its descriptor. *)
Definition plain_archive : list byte :=
  replicate 16 "000"%byte ++ cd_stub ++ eocd_header 4 16 0.
Definition plain_descriptor : ApkSign := located plain_archive false 16 20.
(** The leading size field says 7, the trailing one 25. *)
Definition mismatched_archive : list byte :=
  replicate 5 "000"%byte ++ le_split 8 7 ++ ["001"%byte] ++ le_split 8 25
  ++ APK_SIG_BLOCK_42 ++ cd_stub ++ eocd_header 4 38 0.
(** The CD is the first thing in the file. *)
Definition cd_at_zero : list byte := cd_stub ++ eocd_header 4 0 0.
(** Readers: one that rejects, one that finds the three names of an APK. *)
Definition rejecting : zip_reader :=
  fun _ _ => inl "zip: not a valid zip file"%string.
Definition apk_names : list string :=
  ["META-INF/CERT.SF"; "resources.arsc"; "classes.dex";
   "AndroidManifest.xml"]%string.
Definition apk_entries : zip_reader := fun _ _ => inr apk_names.
(** Keys as numbers: [Resolve] fails on 0 and marks the others resolved by
    doubling them; [Sign] returns one byte per key. *)
Definition resolve_nonzero (k : Z) : Z * option string :=
  if k =? 0 then (k, Some "no key material"%string) else (2 * k, None).
Definition sign_count (_ : ApkSign) (keys : list Z)
  : list byte * option string :=
  (replicate (length keys) "001"%byte, None).

(** The scan gets to comment length [i] with nothing decided: every window
    nearer to the end is passed over. *)
Definition reached (buf : list byte) (i : Z) : Prop :=
  0 <= i < 65535 /\ 22 + i <= len buf /\
  forall j, 0 <= j < i -> passed_over buf j.
(** A parser that rejects every block. *)
Definition parse_none : list byte -> string + unit :=
  fun _ => inl "malformed v2 block"%string.
(** What locate reports on [signed_archive] after the block around bytes 2
    and 3 is injected. *)
Definition reinjected_descriptor : ApkSign :=
  mkApkSign false true
    (spliced signed_descriptor (signing_block_of ["002"%byte; "003"%byte]))
    67 43 39 5 ["002"%byte; "003"%byte].

(** * Properties *)

(** ** Integer conversions, slices and little-endian reads *)

Lemma uint16_small x : 0 <= x < 2 ^ 16 -> uint16 x = x.
Proof. intros. unfold uint16. apply Z.mod_small. lia. Qed.
Lemma uint32_small x : 0 <= x < 2 ^ 32 -> uint32 x = x.
Proof. intros. unfold uint32. apply Z.mod_small. lia. Qed.
Lemma uint64_small x : 0 <= x < 2 ^ 64 -> uint64 x = x.
Proof. intros. unfold uint64. apply Z.mod_small. lia. Qed.
Lemma int64_small x : - 2 ^ 63 <= x < 2 ^ 63 -> int64 x = x.
Proof. intros. unfold int64. rewrite Z.mod_small; lia. Qed.

Lemma len_nonneg {A} (s : list A) : 0 <= len s.
Proof. unfold len. lia. Qed.

Lemma len_app {A} (s t : list A) : len (s ++ t) = len s + len t.
Proof. unfold len. rewrite length_app. lia. Qed.

Lemma len_sub s off n :
  0 <= off -> 0 <= n -> off + n <= len s -> len (sub s off n) = n.
Proof.
  unfold len, sub. intros. rewrite length_take, length_drop. lia.
Qed.

Lemma length_sub s off n :
  0 <= off -> 0 <= n -> off + n <= len s ->
  length (sub s off n) = Z.to_nat n.
Proof. intros. pose proof (len_sub s off n). unfold len in *. lia. Qed.

Lemma slice_sub s lo hi :
  0 <= lo <= hi -> hi <= len s -> slice s lo hi = ret (sub s lo (hi - lo)).
Proof.
  intros. unfold slice.
  destruct (Z.leb_spec 0 lo), (Z.leb_spec lo hi), (Z.leb_spec hi (len s));
    try lia. reflexivity.
Qed.

Lemma slice_panic s lo hi :
  lo < 0 \/ hi < lo \/ len s < hi -> slice s lo hi = panic
      SliceBoundsOutOfRange.
Proof.
  intros. unfold slice.
  destruct (Z.leb_spec 0 lo), (Z.leb_spec lo hi), (Z.leb_spec hi (len s));
    try lia; reflexivity.
Qed.

Lemma sub_sub s off n lo m :
  0 <= off -> 0 <= lo -> 0 <= m -> lo + m <= n ->
  sub (sub s off n) lo m = sub s (off + lo) m.
Proof.
  intros. unfold sub.
  rewrite skipn_firstn_comm, take_take, drop_drop.
  f_equal; [lia | f_equal; lia].
Qed.

Lemma sub_app_l s t off n :
  0 <= off -> 0 <= n -> off + n <= len s -> sub (s ++ t) off n = sub s off n.
Proof.
  unfold sub, len. intros.
  rewrite drop_app_le by lia. rewrite take_app_le; [done|].
  rewrite length_drop. lia.
Qed.

Lemma sub_app_r s t off n :
  len s <= off -> sub (s ++ t) off n = sub t (off - len s) n.
Proof.
  unfold sub, len. intros.
  rewrite drop_app_ge by lia. do 2 f_equal. lia.
Qed.

Lemma sub_all s : sub s 0 (len s) = s.
Proof. unfold sub, len. rewrite Nat2Z.id. simpl. apply firstn_all. Qed.

Lemma le_combine_cons h t :
  le_combine (h :: t) = Z.lor (byte.unsigned h) (Z.shiftl (le_combine t) 8).
Proof. reflexivity. Qed.

Ltac le_flatten :=
  rewrite ?le_combine_cons, ?le_combine_nil;
  repeat (rewrite ?Z.shiftl_lor, ?Z.shiftl_shiftl, ?Z.shiftl_0_l, ?Z.lor_0_r
      by lia);
  cbn [Z.add Pos.add Pos.succ]; rewrite ?Z.lor_assoc.

Lemma Uint16_take b :
  (2 <= length b)%nat -> Uint16 b = ret (le_combine (take 2 b)).
Proof.
  destruct b as [|b0 [|b1 r]]; simpl length; try lia. intros _.
  cbn [Uint16 take firstn]. f_equal. le_flatten. reflexivity.
Qed.

Lemma Uint32_take b :
  (4 <= length b)%nat -> Uint32 b = ret (le_combine (take 4 b)).
Proof.
  destruct b as [|b0 [|b1 [|b2 [|b3 r]]]]; simpl length; try lia. intros _.
  cbn [Uint32 take firstn]. f_equal. le_flatten. reflexivity.
Qed.

Lemma Uint32_short b :
  (length b < 4)%nat -> Uint32 b = panic IndexOutOfRange.
Proof.
  destruct b as [|b0 [|b1 [|b2 [|b3 r]]]]; simpl length; try lia; reflexivity.
Qed.

Lemma Uint64_take b :
  (8 <= length b)%nat -> Uint64 b = ret (le_combine (take 8 b)).
Proof.
  destruct b as [|b0 [|b1 [|b2 [|b3 [|b4 [|b5 [|b6 [|b7 r]]]]]]]];
    simpl length; try lia. intros _.
  cbn [Uint64 take firstn]. f_equal. le_flatten. reflexivity.
Qed.

Lemma take_sub s off n k :
  (k <= Z.to_nat n)%nat -> take k (sub s off n) = sub s off (Z.of_nat k).
Proof.
  intros. unfold sub. rewrite take_take. f_equal. lia.
Qed.

Lemma Uint16_sub s off n :
  0 <= off -> 2 <= n -> off + n <= len s ->
  Uint16 (sub s off n) = ret (le_at s off 2).
Proof.
  intros. rewrite Uint16_take.
  - rewrite take_sub by lia. reflexivity.
  - pose proof (len_sub s off n). unfold len in *. lia.
Qed.

Lemma Uint32_sub s off n :
  0 <= off -> 4 <= n -> off + n <= len s ->
  Uint32 (sub s off n) = ret (le_at s off 4).
Proof.
  intros. rewrite Uint32_take.
  - rewrite take_sub by lia. reflexivity.
  - pose proof (len_sub s off n). unfold len in *. lia.
Qed.

Lemma Uint64_sub s off n :
  0 <= off -> 8 <= n -> off + n <= len s ->
  Uint64 (sub s off n) = ret (le_at s off 8).
Proof.
  intros. rewrite Uint64_take.
  - rewrite take_sub by lia. reflexivity.
  - pose proof (len_sub s off n). unfold len in *. lia.
Qed.

Lemma le_at_bound s off n :
  0 <= off -> 0 <= n -> off + n <= len s -> 0 <= le_at s off n < 2 ^ (8 * n).
Proof.
  intros. unfold le_at. pose proof (le_combine_bound (sub s off n)) as Hb.
  pose proof (len_sub s off n). unfold len in *.
  replace (8 * n) with (8 * Z.of_nat (length (sub s off n))) by lia. exact Hb.
Qed.

(** ** The signing-block step and the loop body, over absolute reads *)

Lemma bind_ret {A B} (a : A) (f : A -> go B) : (ret a ≫= f) = f a.
Proof. reflexivity. Qed.
Lemma uint64_sub_sub a b c : uint64 (uint64 (a - b) - c) = uint64 (a - b - c).
Proof. unfold uint64. rewrite Zminus_mod_idemp_l. reflexivity. Qed.

Lemma int64_cases x :
  0 <= x < 2 ^ 64 ->
  (x < 2 ^ 63 /\ int64 x = x) \/ (2 ^ 63 <= x /\ int64 x = x - 2 ^ 64).
Proof. intros. unfold int64. Z.div_mod_to_equations. lia. Qed.

Lemma uint64_range x : 0 <= uint64 x < 2 ^ 64.
Proof. unfold uint64. apply Z.mod_pos_bound. lia. Qed.

Ltac slice_ok :=
  match goal with
  | |- (slice ?s ?lo ?hi ≫= _) = _ =>
      rewrite (slice_sub s lo hi) by lia; rewrite bind_ret
  end.
Ltac slice_bad :=
  match goal with
  | |- (slice ?s ?lo ?hi ≫= _) = _ =>
      rewrite (slice_panic s lo hi) by lia; reflexivity
  end.

Lemma signing_block_eq buf apk cd eocd :
  len buf < 2 ^ 63 -> 0 <= cd < 2 ^ 32 ->
  signing_block (located buf apk cd eocd) = block_outcome buf apk cd eocd.
Proof.
  intros Hlen Hcd. unfold signing_block, block_outcome.
  cbn [raw cdOffset located asv2Offset].
  rewrite (int64_small cd), (int64_small (cd - 16)) by lia.
  destruct (Z.ltb_spec cd 16); cbn [orb]; [slice_bad|].
  destruct (Z.ltb_spec (len buf) cd); cbn [orb]; [slice_bad|].
  slice_ok.
  replace (cd - (cd - 16)) with 16 by lia.
  destruct (negb (bool_decide (sub buf (cd - 16) 16 = APK_SIG_BLOCK_42)));
      [reflexivity|].
  rewrite uint64_sub_sub.
  destruct (Z.ltb_spec cd 24).
  { pose proof (uint64_range (cd - 16 - 8)).
    destruct (int64_cases (uint64 (cd - 16 - 8))) as [[? E]|[? E]];
      [lia| |]; rewrite E; [|slice_bad].
    unfold uint64 in *. exfalso. Z.div_mod_to_equations. lia. }
  rewrite (uint64_small (cd - 16 - 8)), (int64_small (cd - 16 - 8)) by lia.
  rewrite (int64_small (cd - 16 - 8 + 8)) by lia.
  slice_ok.
  replace (cd - 16 - 8 + 8 - (cd - 16 - 8)) with 8 by lia.
  replace (cd - 16 - 8) with (cd - 24) by lia.
  rewrite Uint64_sub by lia. rewrite bind_ret.
  rewrite !uint64_sub_sub.
  set (post := le_at buf (cd - 24) 8).
  set (a := uint64 (cd - post - 8)).
  pose proof (uint64_range (cd - post - 8)) as Ha. fold a in Ha.
  destruct (int64_cases a Ha) as [[Ha1 E]|[Ha1 E]]; rewrite E.
  2:{ destruct (Z.leb_spec (2 ^ 63) a); [|lia]. cbn [orb]. slice_bad. }
  destruct (Z.leb_spec (2 ^ 63) a); [lia|]. cbn [orb].
  destruct (Z.ltb_spec (len buf) (a + 8)).
  { destruct (int64_cases (a + 8)) as [[? E2]|[? E2]]; [lia| |]; rewrite ?E2;
      slice_bad. }
  rewrite (int64_small (a + 8)) by lia.
  slice_ok.
  replace (a + 8 - a) with 8 by lia.
  rewrite Uint64_sub by lia. rewrite bind_ret.
  set (pre := le_at buf a 8).
  pose proof (le_at_bound buf a 8 ltac:(lia) ltac:(lia) ltac:(lia)) as Hpre.
  fold pre in Hpre. change (8 * 8) with 64 in Hpre.
  destruct (Z.eqb_spec pre post) as [e|]; [|reflexivity].
  unfold make.
  destruct (Z.ltb_spec pre 24); cbn [orb].
  { destruct (int64_cases (uint64 (pre - 24)) (uint64_range _)) as [[? E2]|[?
      E2]];
      rewrite E2.
    - unfold uint64 in *. exfalso. Z.div_mod_to_equations. lia.
    - destruct (Z.leb_spec 0 (uint64 (pre - 24) - 2 ^ 64)); [|reflexivity].
      pose proof (uint64_range (pre - 24)). lia. }
  rewrite (uint64_small (pre - 24)) by lia.
  destruct (int64_cases (pre - 24)) as [[? E2]|[? E2]]; [lia| |]; rewrite E2.
  - destruct (Z.leb_spec 0 (pre - 24)); [|lia]. cbn [andb].
    unfold maxAlloc in *.
    destruct (Z.leb_spec (pre - 24) (2 ^ 48)), (Z.ltb_spec (2 ^ 48 + 24) pre);
      try lia; try reflexivity.
    rewrite bind_ret. unfold slice_from. cbn [raw set_asv2].
    rewrite (uint64_small (a + 8)), (int64_small (a + 8)) by lia.
    rewrite (slice_sub buf (a + 8) (len buf)) by lia. reflexivity.
  - destruct (Z.leb_spec 0 (pre - 24 - 2 ^ 64)); [lia|]. cbn [andb].
    unfold maxAlloc.
    destruct (Z.ltb_spec (2 ^ 48 + 24) pre); [reflexivity | lia].
Qed.

Lemma slice_window s off n lo hi :
  0 <= off -> off + n <= len s -> 0 <= lo <= hi -> hi <= n ->
  slice (sub s off n) lo hi = ret (sub s (off + lo) (hi - lo)).
Proof.
  intros. rewrite slice_sub; [|lia|].
  - rewrite sub_sub by lia. reflexivity.
  - rewrite len_sub; lia.
Qed.

Lemma scan_body_eq zr buf i :
  len buf < 2 ^ 63 -> 0 <= i < 2 ^ 16 -> 22 + i <= len buf ->
  scan_body zr (fresh buf) i = window_outcome zr buf i.
Proof.
  intros Hlen Hi Hwin. unfold scan_body, window_outcome.
  cbn [raw size fresh].
  rewrite (int64_small i) by lia.
  rewrite (int64_small (len buf - 22 - i)) by lia.
  set (e := len buf - 22 - i).
  rewrite (int64_small (e + 22)) by lia.
  rewrite (slice_sub buf e (e + 22)) by lia. rewrite bind_ret.
  replace (e + 22 - e) with 22 by lia.
  rewrite !slice_window by lia. rewrite ?bind_ret.
  rewrite !Z.add_0_r. 
  change (4 - 0) with 4. change (22 - 20) with 2. change (20 - 16) with 4.
  change (16 - 12) with 4.
  rewrite (Uint32_sub buf e 4) by lia. rewrite bind_ret.
  destruct (Z.eqb_spec (le_at buf e 4) EOCD_MAGIC); cbn [negb]; [|reflexivity].
  rewrite (Uint16_sub buf (e + 20) 2) by lia. rewrite bind_ret.
  rewrite (uint16_small i) by lia.
  rewrite (Z.eqb_sym i).
  destruct (Z.eqb_spec (le_at buf (e + 20) 2) i); cbn [negb]; [|reflexivity].
  rewrite (Uint32_sub buf (e + 16) 4) by lia. rewrite !bind_ret.
  rewrite (Uint32_sub buf (e + 12) 4) by lia. rewrite bind_ret.
  pose proof (le_at_bound buf (e + 16) 4 ltac:(lia) ltac:(lia) ltac:(lia)) as
      Hcd.
  pose proof (le_at_bound buf (e + 12) 4 ltac:(lia) ltac:(lia) ltac:(lia)) as
      Hcl.
  change (8 * 4) with 32 in *.
  set (cd := le_at buf (e + 16) 4) in *.
  set (cl := le_at buf (e + 12) 4) in *.
  rewrite (int64_small cd) by lia. unfold slice_from.
  destruct (Z.ltb_spec (len buf) cd).
  { rewrite (slice_panic buf cd (len buf)) by lia. reflexivity. }
  rewrite (slice_sub buf cd (len buf)) by lia. rewrite bind_ret.
  destruct (Z.ltb_spec (len buf) (cd + 4)).
  { rewrite Uint32_short; [reflexivity|].
    pose proof (len_sub buf cd (len buf - cd)). unfold len in *. lia. }
  rewrite Uint32_sub by lia. rewrite bind_ret.
  destruct (Z.eqb_spec (le_at buf cd 4) CD_MAGIC); cbn [negb]; [|reflexivity].
  rewrite (uint64_small (len buf)), (uint64_small (len buf - 22)),
    (uint64_small i) by lia. fold e.
  rewrite (uint64_small e) by lia.
  rewrite (uint64_small cd), (uint64_small cl) by lia.
  rewrite (uint64_small (cd + cl)) by lia.
  destruct (Z.eqb_spec (cd + cl) e); cbn [negb]; [|reflexivity].
  cbn [set_offsets set_IsAPK raw size fresh IsAPK IsV2Signed asv2Offset
      rawASv2 eocdOffset cdOffset].
  destruct (zr buf (len buf)) as [msg|names]; [reflexivity|].
  change (set_IsAPK (set_offsets (fresh buf) cd e) (is_apk names))
    with (located buf (is_apk names) cd e).
  rewrite signing_block_eq by lia. reflexivity.
Qed.

Lemma scan_body_short zr buf i :
  len buf < 2 ^ 63 -> 0 <= i < 2 ^ 16 -> len buf < 22 + i ->
  scan_body zr (fresh buf) i = panic SliceBoundsOutOfRange.
Proof.
  intros Hlen Hi Hwin. unfold scan_body. cbn [raw size fresh].
  pose proof (len_nonneg buf).
  rewrite (int64_small i) by lia.
  rewrite (int64_small (len buf - 22 - i)) by lia.
  rewrite slice_panic by lia. reflexivity.
Qed.

Lemma copy_fresh (buf : list byte) :
  copy (replicate (length buf) "000"%byte) buf = buf.
Proof.
  unfold copy. rewrite length_replicate, Nat.min_id.
  rewrite firstn_all. rewrite drop_ge by (rewrite length_replicate; lia).
  apply app_nil_r.
Qed.

Lemma NewApkSign_eq zr buf :
  len buf < 2 ^ 63 ->
  NewApkSign zr buf =
    if len buf <? 22 then ret (Failure ErrTooSmall)
    else scan zr (fresh buf) scan_iterations 0.
Proof.
  intros Hlen. unfold NewApkSign. pose proof (len_nonneg buf).
  rewrite (int64_small (len buf)) by lia.
  unfold len at 2. rewrite Nat2Z.id, copy_fresh. reflexivity.
Qed.

(** ** The scan loop *)

(** The loop: [k] iterations that continue. *)
Lemma scan_skip zr z k : forall n i,
  0 <= i -> i + Z.of_nat k < 2 ^ 32 ->
  (forall j, i <= j < i + Z.of_nat k -> scan_body zr z j = ret Continue) ->
  scan zr z (k + n) i = scan zr z n (i + Z.of_nat k).
Proof.
  induction k as [|k IH]; intros n i Hi Hk Hbody.
  - simpl. f_equal. lia.
  - cbn [Nat.add scan]. rewrite Hbody by lia. rewrite bind_ret.
    rewrite uint32_small by lia. rewrite IH by (try lia; intros; apply Hbody;
        lia).
    f_equal. lia.
Qed.

Lemma scan_returns zr z n i r :
  scan_body zr z i = ret (Return r) -> scan zr z (S n) i = ret r.
Proof. intros H. cbn [scan]. rewrite H. reflexivity. Qed.

(** An outcome other than "not a zip" comes from an iteration of the loop. *)
Lemma scan_inv zr z n : forall i o,
  0 <= i -> i + Z.of_nat n < 2 ^ 32 ->
  scan zr z n i = o ->
  (o = ret (Failure ErrNotAZip) /\
   forall j, i <= j < i + Z.of_nat n -> scan_body zr z j = ret Continue) \/
  exists j, i <= j < i + Z.of_nat n /\
    (forall j', i <= j' < j -> scan_body zr z j' = ret Continue) /\
    ((exists r, scan_body zr z j = ret (Return r) /\ o = ret r) \/
     (exists e, scan_body zr z j = panic e /\ o = panic e)).
Proof.
  induction n as [|n IH]; intros i o Hi Hn H.
  - left. simpl in H. split; [by subst|]. intros; lia.
  - cbn [scan] in H.
    destruct (scan_body zr z i) as [[|r]|e] eqn:Hb.
    + rewrite bind_ret in H. rewrite uint32_small in H by lia.
      apply IH in H; [|lia|lia].
      destruct H as [[-> Hall]|(j & Hj & Hbefore & Hat)].
      * left. split; [done|]. intros j Hj.
        destruct (Z.eq_dec j i) as [->|]; [done|]. apply Hall. lia.
      * right. exists j. split; [lia|]. split; [|done].
        intros j' Hj'. destruct (Z.eq_dec j' i) as [->|]; [done|].
        apply Hbefore. lia.
    + right. exists i. split; [lia|]. split; [intros; lia|].
      left. exists r. split; [done|]. by rewrite <- H.
    + right. exists i. split; [lia|]. split; [intros; lia|].
      right. exists e. split; [done|]. by rewrite <- H.
Qed.

(** ** What a window does to the scan *)

Lemma window_passed_over zr buf i :
  passed_over buf i -> window_outcome zr buf i = ret Continue.
Proof.
  unfold passed_over, fails_corroboration, has_eocd_magic, window_outcome,
    declared_comment_len, declared_cd, eocd_at.
  intros H.
  destruct (Z.eqb_spec (le_at buf (len buf - 22 - i) 4) EOCD_MAGIC);
    cbn [negb]; [|reflexivity].
  destruct (Z.eqb_spec (le_at buf (len buf - 22 - i + 20) 2) i);
    cbn [negb]; [|reflexivity].
  destruct H as [H|[H|[Hr H]]]; try contradiction.
  destruct (Z.ltb_spec (len buf) (le_at buf (len buf - 22 - i + 16) 4)); [lia|].
  destruct (Z.ltb_spec (len buf) (le_at buf (len buf - 22 - i + 16) 4 + 4));
      [lia|].
  destruct (Z.eqb_spec (le_at buf (le_at buf (len buf - 22 - i + 16) 4) 4)
      CD_MAGIC);
    [contradiction|reflexivity].
Qed.

Lemma window_corroborated zr buf i :
  22 + i <= len buf -> corroborated buf i ->
  window_outcome zr buf i =
    if negb (declared_cd buf i + declared_cd_len buf i =? eocd_at buf i)
    then ret (Return (Failure ErrCDNotAdjacent))
    else
      match zr buf (len buf) with
      | inl msg => ret (Return (Failure (ErrCollaborator msg)))
      | inr names =>
          r ← block_outcome buf (is_apk names) (declared_cd buf i)
                (eocd_at buf i);
          mret (Return r)
      end.
Proof.
  unfold corroborated, has_eocd_magic, window_outcome,
    declared_comment_len, declared_cd, declared_cd_len, eocd_at.
  intros Hw (Hm & Hc & Hr & Hcd).
  rewrite Hm, Hc, Hcd, !Z.eqb_refl. cbn [negb].
  destruct (Z.ltb_spec (len buf) (le_at buf (len buf - 22 - i + 16) 4)); [lia|].
  destruct (Z.ltb_spec (len buf) (le_at buf (len buf - 22 - i + 16) 4 + 4));
      [lia|].
  reflexivity.
Qed.

Lemma window_returns zr buf i r :
  0 <= i -> 22 + i <= len buf ->
  window_outcome zr buf i = ret (Return r) -> corroborated buf i.
Proof.
  unfold corroborated, has_eocd_magic, window_outcome,
    declared_comment_len, declared_cd, declared_cd_len, eocd_at.
  intros Hi Hw H.
  destruct (Z.eqb_spec (le_at buf (len buf - 22 - i) 4) EOCD_MAGIC);
    cbn [negb] in H; [|discriminate].
  destruct (Z.eqb_spec (le_at buf (len buf - 22 - i + 20) 2) i);
    cbn [negb] in H; [|discriminate].
  destruct (Z.ltb_spec (len buf) (le_at buf (len buf - 22 - i + 16) 4));
    [discriminate|].
  destruct (Z.ltb_spec (len buf) (le_at buf (len buf - 22 - i + 16) 4 + 4));
    [discriminate|].
  destruct (Z.eqb_spec (le_at buf (le_at buf (len buf - 22 - i + 16) 4) 4)
      CD_MAGIC);
    cbn [negb] in H; [|discriminate].
  repeat split; (assumption || lia).
Qed.

Lemma scan_iterations_eq : Z.of_nat scan_iterations = 65535.
Proof. unfold scan_iterations. lia. Qed.

Lemma body_passed_over zr buf i :
  len buf < 2 ^ 63 -> 0 <= i < 2 ^ 16 -> 22 + i <= len buf ->
  passed_over buf i -> scan_body zr (fresh buf) i = ret Continue.
Proof.
  intros. rewrite scan_body_eq by assumption. by apply window_passed_over.
Qed.

(** The scan reaches comment length [i]. *)
Lemma scan_reaches zr buf i :
  len buf < 2 ^ 63 -> 0 <= i <= 65535 -> 22 + i <= len buf + 1 ->
  (forall j, 0 <= j < i -> passed_over buf j) ->
  scan zr (fresh buf) scan_iterations 0 =
  scan zr (fresh buf) (Z.to_nat (65535 - i)) i.
Proof.
  intros Hlen Hi Hw Hp.
  replace scan_iterations with (Z.to_nat i + Z.to_nat (65535 - i))%nat
    by (unfold scan_iterations; lia).
  rewrite scan_skip; [f_equal; lia|lia|lia|].
  intros j Hj. apply body_passed_over; try lia. apply Hp. lia.
Qed.

Lemma NewApkSign_reaches zr buf i r :
  len buf < 2 ^ 63 -> 0 <= i < 65535 -> 22 + i <= len buf ->
  (forall j, 0 <= j < i -> passed_over buf j) ->
  window_outcome zr buf i = ret (Return r) ->
  NewApkSign zr buf = ret r.
Proof.
  intros Hlen Hi Hw Hp Hr.
  rewrite NewApkSign_eq by assumption.
  destruct (Z.ltb_spec (len buf) 22); [lia|].
  rewrite (scan_reaches zr buf i) by (assumption || lia).
  replace (Z.to_nat (65535 - i)) with (S (Z.to_nat (65534 - i))) by lia.
  apply scan_returns. rewrite scan_body_eq by (assumption || lia). exact Hr.
Qed.

Lemma NewApkSign_accepts zr buf i names :
  len buf < 2 ^ 63 -> 0 <= i < 65535 -> 22 + i <= len buf ->
  (forall j, 0 <= j < i -> passed_over buf j) ->
  corroborated buf i -> adjacent buf i ->
  zr buf (len buf) = inr names ->
  NewApkSign zr buf =
    block_outcome buf (is_apk names) (declared_cd buf i) (eocd_at buf i).
Proof.
  intros Hlen Hi Hw Hp Hc Hadj Hzr.
  rewrite NewApkSign_eq by assumption.
  destruct (Z.ltb_spec (len buf) 22); [lia|].
  rewrite (scan_reaches zr buf i) by (assumption || lia).
  replace (Z.to_nat (65535 - i)) with (S (Z.to_nat (65534 - i))) by lia.
  cbn [scan]. rewrite scan_body_eq by (assumption || lia).
  rewrite window_corroborated by assumption.
  rewrite Hadj, Z.eqb_refl, Hzr. cbn [negb].
  destruct (block_outcome _ _ _ _); reflexivity.
Qed.

(** When no window yields a candidate, the scan only ends well on a buffer
    long enough to hold 65534 comment bytes: on a shorter one the window
    slides off the front of the buffer. *)
Lemma scan_exhausted zr buf :
  len buf < 2 ^ 63 -> 22 + 65534 <= len buf ->
  (forall j, 0 <= j < 65535 -> passed_over buf j) ->
  NewApkSign zr buf = ret (Failure ErrNotAZip).
Proof.
  intros Hlen Hlong Hp. rewrite NewApkSign_eq by assumption.
  destruct (Z.ltb_spec (len buf) 22); [lia|].
  rewrite (scan_reaches zr buf 65535) by (assumption || lia). reflexivity.
Qed.

Lemma scan_slides_off zr buf :
  22 <= len buf < 22 + 65534 ->
  (forall j, 0 <= j <= len buf - 22 -> passed_over buf j) ->
  NewApkSign zr buf = panic SliceBoundsOutOfRange.
Proof.
  intros Hlen Hp. rewrite NewApkSign_eq by lia.
  destruct (Z.ltb_spec (len buf) 22); [lia|].
  rewrite (scan_reaches zr buf (len buf - 21)); try lia.
  - replace (Z.to_nat (65535 - (len buf - 21)))
      with (S (Z.to_nat (65534 - (len buf - 21)))) by lia.
    cbn [scan]. rewrite scan_body_short by lia. reflexivity.
  - intros j Hj. apply Hp. lia.
Qed.

(** ** Inversion: where a returned descriptor comes from *)

Lemma window_continue_inv zr buf i :
  window_outcome zr buf i = ret Continue -> passed_over buf i.
Proof.
  unfold passed_over, fails_corroboration, has_eocd_magic, window_outcome,
    declared_comment_len, declared_cd, eocd_at.
  intros H.
  destruct (Z.eqb_spec (le_at buf (len buf - 22 - i) 4) EOCD_MAGIC);
    cbn [negb] in H; [|by left].
  destruct (Z.eqb_spec (le_at buf (len buf - 22 - i + 20) 2) i);
    cbn [negb] in H; [|by right; left].
  destruct (Z.ltb_spec (len buf) (le_at buf (len buf - 22 - i + 16) 4));
    [discriminate|].
  destruct (Z.ltb_spec (len buf) (le_at buf (len buf - 22 - i + 16) 4 + 4));
    [discriminate|].
  destruct (Z.eqb_spec (le_at buf (le_at buf (len buf - 22 - i + 16) 4) 4)
      CD_MAGIC);
    cbn [negb] in H.
  - destruct (negb _) in H; [discriminate|].
    destruct (zr buf (len buf)); [discriminate|].
    destruct (block_outcome _ _ _ _); discriminate.
  - right; right. split; [lia|assumption].
Qed.

Lemma NewApkSign_descriptor_inv zr buf z :
  len buf < 2 ^ 63 -> NewApkSign zr buf = ret (Descriptor z) ->
  exists i names,
    0 <= i < 65535 /\ 22 + i <= len buf /\
    (forall j, 0 <= j < i -> passed_over buf j) /\
    corroborated buf i /\ adjacent buf i /\
    zr buf (len buf) = inr names /\
    block_outcome buf (is_apk names) (declared_cd buf i) (eocd_at buf i)
      = ret (Descriptor z).
Proof.
  intros Hlen H. rewrite NewApkSign_eq in H by assumption.
  destruct (Z.ltb_spec (len buf) 22); [discriminate|].
  apply scan_inv in H; [|lia|rewrite scan_iterations_eq; lia].
  rewrite scan_iterations_eq in H.
  destruct H as [[H _]|(i & Hi & Hbefore & [(r & Hat & Hr)|(e & _ & He)])];
    try discriminate.
  injection Hr as <-.
  assert (22 + i <= len buf) as Hw.
  { destruct (Z.le_gt_cases (22 + i) (len buf)) as [|Hs]; [assumption|].
    rewrite scan_body_short in Hat by lia. discriminate. }
  rewrite scan_body_eq in Hat by lia.
  pose proof (window_returns zr buf i _ ltac:(lia) Hw Hat) as Hc.
  rewrite window_corroborated in Hat by assumption.
  destruct (Z.eqb_spec (declared_cd buf i + declared_cd_len buf i) (eocd_at
      buf i))
    as [Hadj|]; cbn [negb] in Hat; [|discriminate].
  destruct (zr buf (len buf)) as [msg|names] eqn:Hzr; [discriminate|].
  exists i, names.
  split; [lia|]. split; [lia|]. split.
  { intros j Hj. apply (window_continue_inv zr).
    rewrite <- scan_body_eq by lia. apply Hbefore. lia. }
  split; [assumption|]. split; [assumption|]. split; [reflexivity|].
  destruct (block_outcome _ _ _ _) as [r|]; [|discriminate].
  rewrite bind_ret in Hat. inversion Hat. reflexivity.
Qed.

(** What a descriptor that [block_outcome] returns looks like. *)
Lemma block_outcome_inv buf apk cd e z :
  len buf < 2 ^ 63 ->
  block_outcome buf apk cd e = ret (Descriptor z) ->
  16 <= cd <= len buf /\
  IsAPK z = apk /\ raw z = buf /\ size z = len buf /\
  eocdOffset z = e /\ cdOffset z = cd /\
  ((sub buf (cd - 16) 16 <> APK_SIG_BLOCK_42 /\ z = located buf apk cd e) \/
   (sub buf (cd - 16) 16 = APK_SIG_BLOCK_42 /\ 24 <= cd /\
    let post := le_at buf (cd - 24) 8 in
    let a := uint64 (cd - post - 8) in
    let pre := le_at buf a 8 in
    0 <= a /\ a + 8 <= len buf /\
    ((pre <> post /\ z = located buf apk cd e) \/
     (pre = post /\ 24 <= post /\ a = cd - post - 8 /\
      IsV2Signed z = (0 <? a) /\ asv2Offset z = a /\
      rawASv2 z = sub buf (a + 8) (post - 24))))).
Proof.
  intros Hlen H. unfold block_outcome in H.
  destruct (Z.ltb_spec cd 16); cbn [orb] in H; [discriminate|].
  destruct (Z.ltb_spec (len buf) cd); cbn [orb] in H; [discriminate|].
  destruct (bool_decide_reflect (sub buf (cd - 16) 16 = APK_SIG_BLOCK_42))
    as [Hm|Hm]; cbn [negb] in H.
  2:{ injection H as <-. repeat split; try lia. by left. }
  destruct (Z.ltb_spec cd 24); [discriminate|].
  cbv zeta in H |- *.
  set (post := le_at buf (cd - 24) 8) in *.
  set (a := uint64 (cd - post - 8)) in *.
  set (pre := le_at buf a 8) in *.
  pose proof (uint64_range (cd - post - 8)) as Ha. fold a in Ha.
  destruct (Z.leb_spec (2 ^ 63) a); cbn [orb] in H; [discriminate|].
  destruct (Z.ltb_spec (len buf) (a + 8)); [discriminate|].
  pose proof (le_at_bound buf (cd - 24) 8 ltac:(lia) ltac:(lia) ltac:(lia))
      as Hpost.
  fold post in Hpost. change (8 * 8) with 64 in Hpost.
  destruct (Z.eqb_spec pre post) as [Heq|Hne].
  2:{ injection H as <-. repeat split; try lia. right.
      repeat split; try (assumption || lia). by left. }
  unfold maxAlloc in H.
  destruct (Z.ltb_spec pre 24); cbn [orb] in H; [discriminate|].
  destruct (Z.ltb_spec (2 ^ 48 + 24) pre); [discriminate|].
  injection H as <-. cbn [IsAPK raw size eocdOffset cdOffset IsV2Signed
      asv2Offset rawASv2].
  assert (a = cd - post - 8) as Haeq.
  { subst a. unfold uint64 in *. Z.div_mod_to_equations. lia. }
  repeat split; try lia. right.
  repeat split; try (assumption || lia). right.
  repeat split; try (assumption || lia).
  unfold copy. rewrite length_replicate.
  rewrite length_sub by lia.
  rewrite Nat.min_l by lia.
  rewrite drop_ge by (rewrite length_replicate; lia).
  rewrite app_nil_r. rewrite take_sub by lia. f_equal. lia.
Qed.

(** ** The locator *)



(** C4.  When the scan reaches a window that passes both corroboration
    checks and whose declared CD offset plus CD length is not the offset of
    the window, the loop body returns the error "CD not adjacent to EOCD"
    and so does [NewApkSign]: no further window is examined and no
    descriptor is returned. *)
Theorem detached_cd_is_fatal zr buf i :
  len buf < 2 ^ 63 -> 0 <= i < 65535 -> 22 + i <= len buf ->
  (forall j, 0 <= j < i -> passed_over buf j) ->
  corroborated buf i ->
  declared_cd buf i + declared_cd_len buf i <> eocd_at buf i ->
  scan_body zr (fresh buf) i = ret (Return (Failure ErrCDNotAdjacent)) /\
  NewApkSign zr buf = ret (Failure ErrCDNotAdjacent).
Proof.
  intros Hlen Hi Hw Hp Hc Hadj.
  assert (window_outcome zr buf i = ret (Return (Failure ErrCDNotAdjacent)))
    as Hwin.
  { rewrite window_corroborated by assumption.
    destruct (Z.eqb_spec (declared_cd buf i + declared_cd_len buf i)
                (eocd_at buf i)); [contradiction|reflexivity]. }
  split.
  - rewrite scan_body_eq by lia. exact Hwin.
  - apply NewApkSign_reaches with (i := i); assumption.
Qed.

Lemma detached_cd_is_fatal_witness :
  NewApkSign no_entries detached_archive = ret (Failure ErrCDNotAdjacent).
Proof.
  apply (detached_cd_is_fatal no_entries detached_archive 0).
  - vm_compute. reflexivity.
  - lia.
  - vm_compute. discriminate.
  - intros j Hj. lia.
  - vm_compute. repeat split; discriminate.
  - vm_compute. discriminate.
Defined.

(** C8.  A descriptor returned by locate with [IsV2Signed = true] has
    [asv2Offset > 0], equal size fields, and a payload whose length is the
    declared block size minus 24. *)
Theorem signed_invariant zr buf z :
  len buf < 2 ^ 63 ->
  NewApkSign zr buf = ret (Descriptor z) ->
  IsV2Signed z = true ->
  0 < asv2Offset z /\
  le_at buf (asv2Offset z) 8 = le_at buf (cdOffset z - 24) 8 /\
  len (rawASv2 z) = le_at buf (cdOffset z - 24) 8 - 24.
Proof.
  intros Hlen H Hs.
  destruct (NewApkSign_descriptor_inv _ _ _ Hlen H)
    as (i & names & Hi & Hw & _ & _ & _ & _ & Hb).
  destruct (block_outcome_inv _ _ _ _ _ Hlen Hb)
    as (Hcd & _ & _ & _ & _ & Hcdz & Hcases).
  rewrite Hcdz.
  destruct Hcases as [[_ ->]|(_ & _ & Hcases)]; [discriminate|].
  cbv zeta in Hcases.
  destruct Hcases as (Ha & Hr & [[_ ->]|(Heq & Hpost & Haeq & Hv & Hoff &
      Hraw)]);
    [discriminate|].
  rewrite Hoff, Hraw. rewrite Hs in Hv.
  split; [symmetry in Hv; apply Z.ltb_lt in Hv; exact Hv|].
  split; [exact Heq|].
  apply len_sub; lia.
Qed.

Lemma signed_invariant_witness :
  0 < asv2Offset signed_descriptor /\
  le_at signed_archive (asv2Offset signed_descriptor) 8
    = le_at signed_archive (cdOffset signed_descriptor - 24) 8 /\
  len (rawASv2 signed_descriptor)
    = le_at signed_archive (cdOffset signed_descriptor - 24) 8 - 24.
Proof.
  apply (signed_invariant no_entries signed_archive).
  - vm_compute. reflexivity.
  - vm_compute. reflexivity.
  - reflexivity.
Defined.

(** C7, amended.  When locate returns a descriptor and the signing-block
    magic sits in front of the CD, [IsV2Signed] is true exactly when the two
    size fields are equal and the block does not start at offset 0; equal
    fields of value L give a payload of L - 24 bytes, unequal fields leave
    the flag false. *)
Theorem size_fields_decide_signature zr buf z :
  len buf < 2 ^ 63 ->
  NewApkSign zr buf = ret (Descriptor z) ->
  sub buf (cdOffset z - 16) 16 = APK_SIG_BLOCK_42 ->
  let postSize := le_at buf (cdOffset z - 24) 8 in
  let start := uint64 (cdOffset z - postSize - 8) in
  let preSize := le_at buf start 8 in
  (IsV2Signed z = true <-> preSize = postSize /\ start <> 0) /\
  (preSize = postSize -> len (rawASv2 z) = postSize - 24) /\
  (preSize <> postSize -> IsV2Signed z = false).
Proof.
  intros Hlen H Hm.
  destruct (NewApkSign_descriptor_inv _ _ _ Hlen H)
    as (i & names & Hi & Hw & _ & _ & _ & _ & Hb).
  destruct (block_outcome_inv _ _ _ _ _ Hlen Hb)
    as (Hcd & _ & _ & _ & _ & Hcdz & Hcases).
  rewrite Hcdz in *.
  destruct Hcases as [[Hn _]|(_ & _ & Hcases)]; [contradiction|].
  cbv zeta in Hcases |- *.
  destruct Hcases as (Ha & Hr & [[Hne ->]|(Heq & Hpost & Haeq & Hv & Hoff &
      Hraw)]).
  - cbn [IsV2Signed located rawASv2]. split; [|split].
    + split; [discriminate|]. intros [? _]. contradiction.
    + intros ?. contradiction.
    + reflexivity.
  - split; [|split].
    + rewrite Hv. rewrite Z.ltb_lt. split; [intros; split; [assumption|lia]|].
      intros [_ ?]. lia.
    + intros _. rewrite Hraw. apply len_sub; lia.
    + intros ?. contradiction.
Qed.

Lemma size_fields_decide_signature_witness :
  IsV2Signed signed_descriptor = true <->
  le_at signed_archive 5 8 = le_at signed_archive 14 8 /\ 5 <> 0.
Proof.
  apply (size_fields_decide_signature no_entries signed_archive
      signed_descriptor).
  - vm_compute. reflexivity.
  - vm_compute. reflexivity.
  - vm_compute. reflexivity.
Defined.

(** C7 as stated fails: in [block_at_zero] both size fields are 24 and
    locate returns a descriptor with [IsV2Signed = false]. *)
Lemma size_fields_decide_signature_counterexample :
  NewApkSign no_entries block_at_zero
    = ret (Descriptor (located block_at_zero false 32 36)) /\
  sub block_at_zero (32 - 16) 16 = APK_SIG_BLOCK_42 /\
  le_at block_at_zero (32 - 24) 8 = 24 /\
  le_at block_at_zero (uint64 (32 - 24 - 8)) 8 = 24 /\
  IsV2Signed (located block_at_zero false 32 36) = false.
Proof. vm_compute. repeat split; reflexivity. Qed.

(** C1 (the code does not do this).  [NewApkSign] does not return on every
    buffer: it panics with a slice-bounds error on 22 zero bytes (the window
    for comment length 1 starts at offset -1), on a lone EOCD header that
    echoes its comment length and declares the CD at offset 0xFFFFFFFF, and
    on a signing block whose size field is larger than the CD offset; it
    panics in [make] on a signing block whose size fields say 16. *)
Theorem locate_panics_on_hostile_input :
  (forall zr, NewApkSign zr (replicate 22 "000"%byte)
              = panic SliceBoundsOutOfRange) /\
  (forall zr, NewApkSign zr (eocd_header 0 0xFFFFFFFF 0)
              = panic SliceBoundsOutOfRange) /\
  NewApkSign no_entries oversized_block_archive
    = panic SliceBoundsOutOfRange /\
  NewApkSign no_entries undersized_block_archive
    = panic MakesliceLenOutOfRange.
Proof.
  split; [|split; [|split]]; try intros zr; vm_compute; reflexivity.
Qed.

Lemma le_combine_replicate_0 n : le_combine (replicate n "000"%byte) = 0.
Proof.
  induction n as [|n IH]; [reflexivity|].
  cbn [replicate]. rewrite le_combine_cons, IH. reflexivity.
Qed.

Lemma le_at_zeros n off m : le_at (replicate n "000"%byte) off m = 0.
Proof.
  unfold le_at, sub. rewrite drop_replicate, take_replicate.
  apply le_combine_replicate_0.
Qed.

Lemma len_longest_comment_archive : len longest_comment_archive = 65577.
Proof.
  unfold longest_comment_archive. rewrite len_app.
  unfold longest_comment, len at 2. rewrite length_replicate.
  change (len longest_comment_head) with 42. lia.
Qed.

Lemma longest_comment_no_magic j :
  0 <= j < 65535 -> ~ has_eocd_magic longest_comment_archive j.
Proof.
  intros Hj. unfold has_eocd_magic, eocd_at.
  rewrite len_longest_comment_archive.
  destruct (Z.le_gt_cases 42 (65577 - 22 - j)) as [Hge|Hlt].
  - unfold longest_comment_archive, le_at.
    rewrite sub_app_r by (change (len longest_comment_head) with 42; lia).
    fold (le_at longest_comment (65577 - 22 - j - len longest_comment_head) 4).
    unfold longest_comment. rewrite le_at_zeros. discriminate.
  - assert (exists k, 65577 - 22 - j = 21 + Z.of_nat k /\ (k < 21)%nat)
      as (k & -> & Hk) by (exists (Z.to_nat (65577 - 22 - j - 21)); lia).
    do 21 (destruct k as [|k]; [vm_compute; discriminate|]). lia.
Qed.

(** C3 (the code does not do this).  The archive whose EOCD carries a
    comment of 65535 bytes has a corroborated, adjacent EOCD at comment
    length 65535, and [NewApkSign] answers "input is not a zip": the loop
    stops after [i = 65534]. *)
Theorem longest_comment_is_not_scanned :
  22 + 65535 <= len longest_comment_archive /\
  corroborated longest_comment_archive 65535 /\
  adjacent longest_comment_archive 65535 /\
  forall zr, NewApkSign zr longest_comment_archive = ret (Failure ErrNotAZip).
Proof.
  split; [rewrite len_longest_comment_archive; lia|].
  split; [vm_compute; repeat split; discriminate|].
  split; [vm_compute; reflexivity|].
  intros zr. apply scan_exhausted.
  - rewrite len_longest_comment_archive; lia.
  - rewrite len_longest_comment_archive; lia.
  - intros j Hj. left. by apply longest_comment_no_magic.
Qed.

(** ** The extractor *)

(** C10.  On a descriptor whose [IsV2Signed] is false [VerifyV2] returns
    the error "v2 verification attempted on non-v2-signed file" and the
    descriptor as it was; on one whose flag is true it never returns that
    error. *)
Theorem verify_unsigned_is_an_error {V2Block : Type}
    (ParseV2Block : list byte -> string + V2Block)
    (Verify : V2Block -> ApkSign -> ApkSign * option string)
    (apkSign : ApkSign) :
  (IsV2Signed apkSign = false ->
   VerifyV2 ParseV2Block Verify apkSign = (apkSign, Some ErrNotV2Signed)) /\
  (IsV2Signed apkSign = true ->
   snd (VerifyV2 ParseV2Block Verify apkSign) <> Some ErrNotV2Signed).
Proof.
  unfold VerifyV2. split; intros ->; cbn [negb]; [reflexivity|].
  destruct (ParseV2Block (rawASv2 apkSign)) as [msg|v2]; [discriminate|].
  destruct (Verify v2 apkSign) as [z' [msg|]]; discriminate.
Qed.

(** ** The injector *)

Lemma make_ok n :
  0 <= n <= maxAlloc -> make n = ret (replicate (Z.to_nat n) "000"%byte).
Proof.
  intros H. unfold make, maxAlloc in *. rewrite int64_small by lia.
  destruct (Z.leb_spec 0 n), (Z.leb_spec n (2 ^ 48)); try lia. reflexivity.
Qed.

Lemma copy_same_length dst src : length dst = length src -> copy dst src = src.
Proof.
  intros H. unfold copy. rewrite H, Nat.min_id, firstn_all.
  rewrite drop_ge by lia. apply app_nil_r.
Qed.

Lemma PutUint32_eq b v :
  (4 <= length b)%nat -> PutUint32 b v = ret (le_split 4 v ++ drop 4 b).
Proof.
  destruct b as [|b0 [|b1 [|b2 [|b3 r]]]]; simpl length; try lia. reflexivity.
Qed.

Lemma le_split_mod n v : le_split n (v mod 2 ^ (Z.of_nat n * 8)) = le_split n v.
Proof.
  rewrite <- le_combine_split. apply split_le_combine'. apply length_le_split.
Qed.

Lemma len_replicate {A} n (x : A) : len (replicate n x) = Z.of_nat n.
Proof. unfold len. by rewrite length_replicate. Qed.

Lemma sub_replicate n off m :
  sub (replicate n "000"%byte) off m
  = replicate (Nat.min (Z.to_nat m) (n - Z.to_nat off)) "000"%byte.
Proof. unfold sub. by rewrite drop_replicate, take_replicate. Qed.

Lemma copy_into_fill dst pre n lo hi src :
  dst = pre ++ replicate (Z.to_nat n) "000"%byte -> lo = len pre ->
  len src <= hi - lo -> hi <= lo + n ->
  copy_into dst lo hi (ret src)
  = ret (pre ++ src ++ replicate (Z.to_nat (n - len src)) "000"%byte).
Proof.
  intros -> -> Hs Hh. pose proof (len_nonneg src). pose proof (len_nonneg pre).
  unfold copy_into.
  rewrite slice_sub; [|lia|rewrite len_app, len_replicate; lia].
  rewrite !bind_ret. f_equal.
  rewrite sub_app_r by lia. rewrite Z.sub_diag, sub_replicate.
  unfold copy. rewrite length_replicate.
  rewrite (take_app_length' pre) by (unfold len; lia).
  f_equal.
  rewrite drop_app_ge by (unfold len in *; lia).
  rewrite !drop_replicate.
  replace (Nat.min (Nat.min (Z.to_nat (hi - len pre)) (Z.to_nat n - Z.to_nat 0))
             (length src))
    with (length src) by (unfold len in *; lia).
  rewrite firstn_all, <- app_assoc. f_equal.
  rewrite <- replicate_add. f_equal. unfold len in *. lia.
Qed.

Lemma len_patched_eocd block v :
  20 <= len block -> len (patched_eocd block v) = len block.
Proof.
  unfold patched_eocd, len.
  rewrite !length_app, length_take, length_le_split, length_drop. lia.
Qed.

Lemma InjectBeforeCD_eq z data :
  valid_offsets z -> len (raw z) + len data <= maxAlloc ->
  InjectBeforeCD z data = ret (spliced z data).
Proof.
  intros (Hsize & Hasv2 & Hcd & Heocd) Halloc.
  pose proof (len_nonneg data) as Hd. unfold maxAlloc in Halloc.
  unfold InjectBeforeCD, spliced, insertion_point.
  set (R := raw z) in *. set (L := len R) in *.
  set (cd := cdOffset z) in *. set (eo := eocdOffset z) in *.
  set (a := asv2Offset z) in *. rewrite Hsize.
  set (ip := if 0 <? a then a else cd).
  assert (Hip : 0 <= ip <= cd) by (subst ip; destruct (Z.ltb_spec 0 a); lia).
  assert (Hns : (if 0 <? a
                 then (a, int64 (int64 L - int64 (uint64 (cd - a))))
                 else (cd, int64 L))
          = (ip, L - (cd - ip))).
  { subst ip. destruct (Z.ltb_spec 0 a).
    - rewrite (uint64_small (cd - a)), (int64_small (cd - a)),
        (int64_small L), (int64_small (L - (cd - a))) by lia. reflexivity.
    - rewrite int64_small by lia. f_equal. lia. }
  rewrite Hns. clear Hns.
  rewrite (int64_small (len data)), (int64_small (L - (cd - ip) + len data)),
    (int64_small eo), (int64_small (L - eo)) by lia.
  rewrite (make_ok (L - eo)) by (unfold maxAlloc; lia). rewrite bind_ret.
  unfold slice_from. fold L.
  rewrite (slice_sub R eo L) by lia. rewrite bind_ret.
  set (E := sub R eo (L - eo)).
  assert (HE : len E = L - eo) by (apply len_sub; lia).
  rewrite copy_same_length
    by (rewrite length_replicate; unfold len in HE; lia).
  rewrite (slice_sub E 16 (len E)) by lia. rewrite bind_ret.
  rewrite PutUint32_eq by (rewrite length_sub; lia). rewrite bind_ret.
  rewrite (uint64_small (len data)), (uint64_small (ip + len data)) by lia.
  unfold uint32. rewrite (le_split_mod 4).
  assert (Hpatch : take 16 E ++ le_split 4 (ip + len data)
                   ++ drop 4 (sub E 16 (len E - 16))
                   = patched_eocd E (ip + len data)).
  { unfold patched_eocd, sub. do 2 f_equal.
    rewrite take_ge by (rewrite length_drop; unfold len; lia).
    rewrite drop_drop. reflexivity. }
  rewrite Hpatch. clear Hpatch.
  set (E' := patched_eocd E (ip + len data)).
  assert (HE' : len E' = L - eo).
  { subst E'. rewrite len_patched_eocd; lia. }
  rewrite (make_ok (L - (cd - ip) + len data)) by (unfold maxAlloc; lia).
  rewrite bind_ret.
  rewrite (slice_sub R 0 ip) by lia. rewrite Z.sub_0_r.
  set (A := sub R 0 ip).
  assert (HA : len A = ip) by (apply len_sub; lia).
  set (n0 := L - (cd - ip) + len data).
  rewrite (copy_into_fill _ [] n0 0 ip A); [|reflexivity|reflexivity|lia|lia].
  rewrite bind_ret. cbn [app].
  rewrite (copy_into_fill _ A (n0 - len A) ip (ip + len data) data);
    [|reflexivity|lia|lia|lia].
  rewrite bind_ret.
  rewrite (slice_sub R cd eo) by lia.
  set (C := sub R cd (eo - cd)).
  assert (HC : len C = eo - cd) by (apply len_sub; lia).
  rewrite (copy_into_fill _ (A ++ data) (n0 - len A - len data) _ _ C);
    [|by rewrite <- app_assoc|rewrite len_app; lia
     |rewrite !len_app, len_replicate; lia
     |rewrite !len_app, len_replicate; lia].
  rewrite bind_ret.
  rewrite (uint64_small (eo - cd)), (uint64_small (ip + len data + (eo - cd)))
    by lia.
  rewrite (copy_into_fill _ ((A ++ data) ++ C)
             (n0 - len A - len data - len C) _ _ E');
    [|by rewrite <- !app_assoc|rewrite !len_app; lia
     |rewrite !len_app, len_replicate; lia
     |rewrite !len_app, len_replicate; lia].
  replace (Z.to_nat (n0 - len A - len data - len C - len E')) with 0%nat
    by lia.
  cbn [replicate]. rewrite app_nil_r, <- !app_assoc. reflexivity.
Qed.

Lemma sub_mid a b c off n :
  off = len a -> n = len b -> sub (a ++ b ++ c) off n = b.
Proof.
  intros -> ->. rewrite sub_app_r by lia. rewrite Z.sub_diag.
  pose proof (len_nonneg b).
  rewrite sub_app_l by lia. apply sub_all.
Qed.

Lemma sub_split s off n :
  0 <= off -> 0 <= n -> off + n <= len s ->
  s = sub s 0 off ++ sub s off n ++ sub s (off + n) (len s - (off + n)).
Proof.
  intros. unfold sub, len in *. simpl drop.
  rewrite <- (take_drop (Z.to_nat off) s) at 1. f_equal.
  rewrite <- (take_drop (Z.to_nat n) (drop (Z.to_nat off) s)) at 1. f_equal.
  rewrite drop_drop. rewrite take_ge by (rewrite length_drop; lia).
  f_equal. lia.
Qed.

Lemma len_take (n : nat) (s : list byte) :
  Z.of_nat n <= len s -> len (take n s) = Z.of_nat n.
Proof. unfold len. rewrite length_take. lia. Qed.

Lemma len_le_split n v : len (le_split n v) = Z.of_nat n.
Proof. unfold len. by rewrite length_le_split. Qed.

Lemma le_combine_le_split_small n v :
  0 <= v < 2 ^ (Z.of_nat n * 8) -> le_combine (le_split n v) = v.
Proof. intros. rewrite le_combine_split. apply Z.mod_small. lia. Qed.

Lemma len_signing_block_of inner :
  len (signing_block_of inner) = len inner + 32.
Proof.
  unfold signing_block_of. rewrite !len_app, !len_le_split.
  change (len APK_SIG_BLOCK_42) with 16. lia.
Qed.

Lemma len_spliced z data :
  valid_offsets z ->
  len (spliced z data)
  = insertion_point z + len data + (len (raw z) - cdOffset z).
Proof.
  intros (Hsize & Hasv2 & Hcd & Heocd). unfold spliced.
  assert (0 <= insertion_point z <= cdOffset z)
    by (unfold insertion_point; destruct (Z.ltb_spec 0 (asv2Offset z)); lia).
  rewrite !len_app, len_patched_eocd; rewrite !len_sub; lia.
Qed.

Lemma ip_range z :
  valid_offsets z -> 0 <= insertion_point z <= cdOffset z.
Proof.
  intros (_ & ? & _). unfold insertion_point.
  destruct (Z.ltb_spec 0 (asv2Offset z)); lia.
Qed.

Lemma patched_eocd_before block v off n :
  0 <= off -> 0 <= n -> off + n <= 16 -> 20 <= len block ->
  sub (patched_eocd block v) off n = sub block off n.
Proof.
  intros. unfold patched_eocd.
  rewrite sub_app_l by (rewrite ?len_take by lia; lia).
  change (take 16 block) with (sub block 0 16).
  rewrite sub_sub by lia. reflexivity.
Qed.

Lemma patched_eocd_field block v :
  20 <= len block -> sub (patched_eocd block v) 16 4 = le_split 4 v.
Proof.
  intros. unfold patched_eocd.
  apply sub_mid; [rewrite len_take by lia; lia|].
  by rewrite len_le_split.
Qed.

Lemma patched_eocd_after block v off n :
  20 <= off -> 20 <= len block ->
  sub (patched_eocd block v) off n = sub block off n.
Proof.
  intros. unfold patched_eocd. rewrite app_assoc.
  assert (len (take 16 block ++ le_split 4 v) = 20) as Hl.
  { rewrite len_app, len_le_split, len_take by lia. lia. }
  rewrite sub_app_r by lia. rewrite Hl.
  unfold sub. rewrite drop_drop. do 2 f_equal. lia.
Qed.

(** Reading the spliced buffer region by region. *)
Section Spliced.
Variables (z : ApkSign) (data : list byte).
Hypothesis Hvalid : valid_offsets z.

Lemma spliced_prefix :
  sub (spliced z data) 0 (insertion_point z)
  = sub (raw z) 0 (insertion_point z).
Proof.
  pose proof (ip_range z Hvalid). destruct Hvalid as (_ & ? & ? & ?).
  unfold spliced.
  rewrite sub_app_l by (rewrite ?len_sub; lia).
  rewrite sub_sub by lia. reflexivity.
Qed.

Lemma spliced_data : sub (spliced z data) (insertion_point z) (len data) = data.
Proof.
  pose proof (ip_range z Hvalid). destruct Hvalid as (_ & ? & ? & ?).
  unfold spliced.
  apply sub_mid; [rewrite len_sub; lia | reflexivity].
Qed.

Lemma spliced_cd :
  sub (spliced z data) (insertion_point z + len data)
      (eocdOffset z - cdOffset z)
  = sub (raw z) (cdOffset z) (eocdOffset z - cdOffset z).
Proof.
  pose proof (ip_range z Hvalid). destruct Hvalid as (_ & ? & ? & ?).
  unfold spliced.
  rewrite (app_assoc (sub _ 0 _)).
  apply sub_mid; [rewrite len_app, len_sub; lia | rewrite len_sub; lia].
Qed.

Lemma spliced_in_data off n :
  0 <= off -> 0 <= n -> off + n <= len data ->
  sub (spliced z data) (insertion_point z + off) n = sub data off n.
Proof.
  intros. pose proof (ip_range z Hvalid).
  destruct Hvalid as (_ & ? & ? & ?). unfold spliced.
  rewrite sub_app_r by (rewrite len_sub; lia).
  rewrite len_sub by lia. rewrite sub_app_l by lia. f_equal. lia.
Qed.

Lemma spliced_in_eocd off n :
  0 <= off -> 0 <= n ->
  sub (spliced z data)
      (insertion_point z + len data + (eocdOffset z - cdOffset z) + off) n
  = sub (patched_eocd
           (sub (raw z) (eocdOffset z) (len (raw z) - eocdOffset z))
           (insertion_point z + len data)) off n.
Proof.
  intros. pose proof (ip_range z Hvalid).
  destruct Hvalid as (_ & ? & ? & ?). pose proof (len_nonneg data).
  unfold spliced. rewrite !app_assoc.
  rewrite sub_app_r by (rewrite !len_app, !len_sub; lia).
  rewrite !len_app, !len_sub by lia. f_equal. lia.
Qed.
End Spliced.

(** C6.  For a descriptor with valid offsets [InjectBeforeCD] returns the
    bytes before the insertion point, then the payload, then the CD, then
    the EOCD block in which only bytes 16..19 differ: they hold the
    little-endian insertion point plus payload length.  The insertion point
    is [asv2Offset] when that is not 0 and [cdOffset] otherwise, and the
    size is the old size minus the dropped block plus the payload.  (The
    result has to be allocatable: [make] panics beyond [maxAlloc].) *)
Theorem injection_layout z data :
  valid_offsets z -> len (raw z) + len data <= maxAlloc ->
  let ip := insertion_point z in
  let new := spliced z data in
  let eocd' := ip + len data + (eocdOffset z - cdOffset z) in
  let rest := len (raw z) - eocdOffset z - 20 in
  InjectBeforeCD z data = ret new /\
  ip = (if 0 <? asv2Offset z then asv2Offset z else cdOffset z) /\
  sub new 0 ip = sub (raw z) 0 ip /\
  sub new ip (len data) = data /\
  sub new (ip + len data) (eocdOffset z - cdOffset z)
    = sub (raw z) (cdOffset z) (eocdOffset z - cdOffset z) /\
  sub new eocd' 16 = sub (raw z) (eocdOffset z) 16 /\
  sub new (eocd' + 16) 4 = le_split 4 (ip + len data) /\
  (ip + len data < 2 ^ 32 -> le_at new (eocd' + 16) 4 = ip + len data) /\
  sub new (eocd' + 20) rest = sub (raw z) (eocdOffset z + 20) rest /\
  len new = eocd' + 20 + rest /\
  len new = len (raw z) - discarded z + len data.
Proof.
  intros Hv Halloc ip new eocd' rest.
  pose proof (ip_range z Hv) as Hip. fold ip in Hip.
  pose proof Hv as (Hsize & Hasv2 & Hcd & Heocd).
  pose proof (len_nonneg data) as Hd.
  assert (Hblock : len (sub (raw z) (eocdOffset z)
                          (len (raw z) - eocdOffset z))
                   = len (raw z) - eocdOffset z) by (apply len_sub; lia).
  split; [by apply InjectBeforeCD_eq|].
  split; [reflexivity|].
  split; [by apply spliced_prefix|].
  split; [by apply spliced_data|].
  split; [by apply spliced_cd|].
  split.
  { subst new eocd' ip. rewrite <- (Z.add_0_r (_ + _ + _)).
    rewrite spliced_in_eocd by (assumption || lia).
    rewrite patched_eocd_before by lia.
    rewrite sub_sub by lia. f_equal. lia. }
  assert (Hfield : sub new (eocd' + 16) 4 = le_split 4 (ip + len data)).
  { subst new eocd' ip. rewrite spliced_in_eocd by (assumption || lia).
    apply patched_eocd_field. lia. }
  split; [exact Hfield|].
  split.
  { intros Hfit. unfold le_at. rewrite Hfield.
    apply le_combine_le_split_small. change (Z.of_nat 4 * 8) with 32. lia. }
  split.
  { subst new eocd' ip rest. rewrite spliced_in_eocd by (assumption || lia).
    rewrite patched_eocd_after by lia.
    rewrite sub_sub by lia. reflexivity. }
  subst new. rewrite len_spliced by assumption.
  subst eocd' rest ip. unfold discarded, insertion_point.
  destruct (Z.ltb_spec 0 (asv2Offset z)); lia.
Qed.

(** C9.  The CD offset written into the EOCD of the result is the
    insertion point plus the payload length modulo 2^32; when that sum does
    not fit in 32 bits the call still returns, and the field does not hold
    the sum. *)
Theorem cd_offset_field_is_truncated z data :
  valid_offsets z -> len (raw z) + len data <= maxAlloc ->
  let ip := insertion_point z in
  let eocd' := ip + len data + (eocdOffset z - cdOffset z) in
  InjectBeforeCD z data = ret (spliced z data) /\
  le_at (spliced z data) (eocd' + 16) 4 = (ip + len data) mod 2 ^ 32 /\
  (2 ^ 32 <= ip + len data ->
   le_at (spliced z data) (eocd' + 16) 4 <> ip + len data).
Proof.
  intros Hv Halloc ip eocd'.
  pose proof Hv as (Hsize & Hasv2 & Hcd & Heocd).
  assert (Hblock : len (sub (raw z) (eocdOffset z)
                          (len (raw z) - eocdOffset z))
                   = len (raw z) - eocdOffset z) by (apply len_sub; lia).
  assert (Hfield : le_at (spliced z data) (eocd' + 16) 4
                   = (ip + len data) mod 2 ^ 32).
  { unfold le_at. subst eocd' ip.
    rewrite spliced_in_eocd by (assumption || lia).
    rewrite patched_eocd_field by lia. apply le_combine_split. }
  split; [by apply InjectBeforeCD_eq|]. split; [exact Hfield|].
  intros Hbig. rewrite Hfield.
  pose proof (Z.mod_pos_bound (ip + len data) (2 ^ 32) ltac:(lia)). lia.
Qed.

Lemma injection_layout_witness :
  InjectBeforeCD signed_descriptor (signing_block_of ["002"%byte; "003"%byte])
  = ret (spliced signed_descriptor (signing_block_of ["002"%byte; "003"%byte])).
Proof.
  apply (injection_layout signed_descriptor
           (signing_block_of ["002"%byte; "003"%byte])).
  - vm_compute. repeat split; discriminate.
  - vm_compute. discriminate.
Defined.

Lemma cd_offset_field_is_truncated_witness :
  le_at (spliced signed_descriptor ["009"%byte]) (5 + 1 + (42 - 38) + 16) 4
  = (5 + 1) mod 2 ^ 32.
Proof.
  apply (cd_offset_field_is_truncated signed_descriptor ["009"%byte]).
  - vm_compute. repeat split; discriminate.
  - vm_compute. discriminate.
Defined.

(** ** Locate after inject *)

Lemma block_outcome_signed buf apk cd e post :
  len buf < 2 ^ 63 -> cd <= len buf ->
  sub buf (cd - 16) 16 = APK_SIG_BLOCK_42 ->
  le_at buf (cd - 24) 8 = post ->
  24 <= post <= cd - 8 -> post <= maxAlloc + 24 ->
  le_at buf (cd - post - 8) 8 = post ->
  block_outcome buf apk cd e
  = ret (Descriptor
           (mkApkSign apk (0 <? cd - post - 8) buf (len buf) e cd
              (cd - post - 8) (sub buf (cd - post) (post - 24)))).
Proof.
  intros Hlen Hcd Hm Hpost Hrange Halloc Hpre. unfold block_outcome.
  destruct (Z.ltb_spec cd 16); [lia|].
  destruct (Z.ltb_spec (len buf) cd); [lia|]. cbn [orb].
  rewrite bool_decide_true by assumption. cbn [negb].
  destruct (Z.ltb_spec cd 24); [lia|].
  cbv zeta. rewrite Hpost.
  rewrite (uint64_small (cd - post - 8)) by lia. rewrite Hpre.
  destruct (Z.leb_spec (2 ^ 63) (cd - post - 8)); [lia|].
  destruct (Z.ltb_spec (len buf) (cd - post - 8 + 8)); [lia|]. cbn [orb].
  rewrite Z.eqb_refl.
  destruct (Z.ltb_spec post 24); [lia|].
  destruct (Z.ltb_spec (maxAlloc + 24) post); [lia|]. cbn [orb].
  do 3 f_equal.
  unfold copy. rewrite length_replicate, length_sub by lia.
  rewrite Nat.min_l by lia.
  rewrite drop_ge by (rewrite length_replicate; lia).
  rewrite app_nil_r, take_sub by lia. f_equal; lia.
Qed.

Lemma spliced_cd_magic z data :
  valid_offsets z ->
  sub (spliced z data) (insertion_point z + len data) 4
  = sub (raw z) (cdOffset z) 4.
Proof.
  intros Hv. pose proof (ip_range z Hv).
  destruct Hv as (_ & ? & ? & ?). pose proof (len_nonneg data).
  set (E := sub (raw z) (eocdOffset z) (len (raw z) - eocdOffset z)).
  set (C := sub (raw z) (cdOffset z) (eocdOffset z - cdOffset z)).
  assert (HE : len E = len (raw z) - eocdOffset z) by (apply len_sub; lia).
  assert (HC : len C = eocdOffset z - cdOffset z) by (apply len_sub; lia).
  transitivity (sub (C ++ take 16 E) 0 4).
  - unfold spliced, patched_eocd. fold E C.
    rewrite (app_assoc (sub _ 0 _)).
    rewrite sub_app_r by (rewrite len_app, len_sub; lia).
    rewrite len_app, len_sub by lia.
    replace (insertion_point z + len data - (insertion_point z + len data))
      with 0 by lia.
    rewrite (app_assoc C).
    apply sub_app_l; [lia|lia|]. rewrite len_app, len_take; lia.
  - rewrite (sub_split (raw z) (cdOffset z) (eocdOffset z - cdOffset z))
      at 1 by lia.
    rewrite (sub_app_r (sub (raw z) 0 (cdOffset z)))
      by (rewrite len_sub; lia).
    rewrite len_sub by lia. rewrite Z.sub_diag. fold C.
    replace (cdOffset z + (eocdOffset z - cdOffset z)) with (eocdOffset z)
      by lia.
    fold E. rewrite <- (take_drop 16 E) at 2.
    rewrite app_assoc. symmetry.
    apply sub_app_l; [lia|lia|]. rewrite len_app, len_take; lia.
Qed.

(** The descriptor of a located archive has valid offsets, and its
    insertion point is not the start of the file. *)
Lemma located_valid zr buf z :
  len buf < 2 ^ 63 -> NewApkSign zr buf = ret (Descriptor z) ->
  valid_offsets z /\ raw z = buf /\ 0 < insertion_point z /\
  exists i, 0 <= i < 65535 /\ eocdOffset z = eocd_at buf i /\
            cdOffset z = declared_cd buf i /\
            corroborated buf i /\ adjacent buf i.
Proof.
  intros Hlen H.
  destruct (NewApkSign_descriptor_inv _ _ _ Hlen H)
    as (i & names & Hi & Hw & _ & Hc & Hadj & _ & Hb).
  destruct (block_outcome_inv _ _ _ _ _ Hlen Hb)
    as (Hcd & _ & Hraw & Hsize & Heo & Hcdz & Hcases).
  assert (0 <= declared_cd_len buf i) as Hcl.
  { unfold declared_cd_len, eocd_at. apply (le_at_bound _ _ 4); lia. }
  unfold adjacent in Hadj. unfold eocd_at in *.
  assert (0 <= asv2Offset z <= cdOffset z /\ 0 < insertion_point z) as [Ha Hip].
  { unfold insertion_point. rewrite Hcdz.
    destruct Hcases as [[_ ->]|(_ & _ & Hcases)];
      [cbn [asv2Offset located Z.ltb Z.compare]; lia|].
    cbv zeta in Hcases.
    destruct Hcases as (Ha & _ & [[_ ->]|(_ & ? & ? & _ & -> & _)]);
      [cbn [asv2Offset located Z.ltb Z.compare]; lia|].
    destruct (Z.ltb_spec 0 (uint64 (declared_cd buf i
                - le_at buf (declared_cd buf i - 24) 8 - 8))); lia. }
  split; [|split; [assumption|split; [assumption|]]].
  - unfold valid_offsets. rewrite Hraw, Hsize, Heo. rewrite Hcdz in *.
    repeat split; lia.
  - exists i. rewrite Heo, Hcdz. unfold eocd_at. repeat split; try lia;
      apply Hc || exact Hadj.
Qed.

Lemma sub_whole s n : n = len s -> sub s 0 n = s.
Proof. intros ->. apply sub_all. Qed.

Section SizeMatchedBlock.
Variable inner : list byte.
Hypothesis Hsmall : len inner + 24 < 2 ^ 64.

Lemma block_leading_size :
  le_at (signing_block_of inner) 0 8 = len inner + 24.
Proof.
  unfold le_at, signing_block_of.
  rewrite sub_app_l by (rewrite ?len_le_split; lia).
  rewrite sub_whole by (by rewrite len_le_split).
  apply le_combine_le_split_small. change (Z.of_nat 8 * 8) with 64.
  pose proof (len_nonneg inner). lia.
Qed.

Lemma block_inner : sub (signing_block_of inner) 8 (len inner) = inner.
Proof.
  unfold signing_block_of. apply sub_mid; [by rewrite len_le_split|done].
Qed.

Lemma block_trailing_size :
  le_at (signing_block_of inner) (len inner + 8) 8 = len inner + 24.
Proof.
  unfold le_at, signing_block_of. rewrite (app_assoc (le_split 8 _)).
  rewrite sub_mid;
    [|rewrite len_app, len_le_split; lia|by rewrite len_le_split].
  apply le_combine_le_split_small. change (Z.of_nat 8 * 8) with 64.
  pose proof (len_nonneg inner). lia.
Qed.

Lemma block_magic :
  sub (signing_block_of inner) (len inner + 16) 16 = APK_SIG_BLOCK_42.
Proof.
  unfold signing_block_of.
  rewrite (app_assoc (le_split 8 _)), (app_assoc (_ ++ _)).
  rewrite <- (app_nil_r APK_SIG_BLOCK_42) at 1.
  apply sub_mid; [rewrite !len_app, !len_le_split; lia|reflexivity].
Qed.
End SizeMatchedBlock.

(** C5, amended.  Locate, inject a size-matched signing block around
    [inner], locate again: provided no window of the injected buffer nearer
    to its end than the original EOCD is corroborated or unreadable, the new
    CD offset fits in 32 bits, the buffer can be allocated and the entry
    reader accepts it, the second locate returns a descriptor with
    [IsV2Signed = true], [asv2Offset] the insertion point, the payload
    [inner], the CD right after the injected block and the EOCD right after
    the CD. *)
Theorem inject_then_locate zr buf z inner names :
  len buf < 2 ^ 63 ->
  NewApkSign zr buf = ret (Descriptor z) ->
  let P := signing_block_of inner in
  let new := spliced z P in
  let ip := insertion_point z in
  len buf + len P <= maxAlloc ->
  ip + len P < 2 ^ 32 ->
  (forall j, 0 <= j < len buf - 22 - eocdOffset z -> passed_over new j) ->
  zr new (len new) = inr names ->
  InjectBeforeCD z P = ret new /\
  NewApkSign zr new =
    ret (Descriptor
           (mkApkSign (is_apk names) true new (len new)
              (ip + len P + (eocdOffset z - cdOffset z)) (ip + len P)
              ip inner)).
Proof.
  intros Hlen H P new ip Halloc Hfit Hpass Hzr.
  destruct (located_valid _ _ _ Hlen H)
    as (Hv & Hraw & Hip & i & Hi & Heo & Hcd & Hc & Hadj).
  pose proof (ip_range z Hv) as Hipr. fold ip in Hip, Hipr.
  pose proof Hv as (Hsize & Hasv2 & Hcdeo & Heocd).
  pose proof (len_nonneg inner) as Hin.
  assert (Hlr : len (raw z) = len buf) by (by rewrite Hraw).
  assert (HP : len P = len inner + 32) by apply len_signing_block_of.
  unfold maxAlloc in Halloc.
  assert (Hnew : len new = ip + len P + (len buf - cdOffset z)).
  { subst new ip. rewrite len_spliced by assumption. by rewrite Hraw. }
  split; [apply InjectBeforeCD_eq; [assumption|rewrite Hraw; exact Halloc]|].
  set (eo' := ip + len P + (eocdOffset z - cdOffset z)).
  assert (Heo' : eocd_at new i = eo').
  { unfold eocd_at. rewrite Hnew. subst eo'. rewrite Heo.
    unfold eocd_at. lia. }
  assert (Hadj2 : cdOffset z + le_at buf (eocdOffset z + 12) 4
                  = eocdOffset z).
  { unfold adjacent, declared_cd_len in Hadj.
    rewrite <- Hcd, <- Heo in Hadj. exact Hadj. }
  destruct Hc as (Hmagic & Hecho & Hreadable & Hcdmagic).
  unfold has_eocd_magic, declared_comment_len, declared_cd, adjacent,
    declared_cd_len in *.
  rewrite <- Heo, <- ?Hcd in *.
  assert (Hblock : len (sub (raw z) (eocdOffset z)
                          (len (raw z) - eocdOffset z))
                   = len (raw z) - eocdOffset z) by (apply len_sub; lia).
  assert (Hfield : le_at new (eo' + 16) 4 = ip + len P).
  { unfold le_at. subst new eo' ip.
    rewrite spliced_in_eocd by (assumption || lia).
    rewrite patched_eocd_field by lia.
    apply le_combine_le_split_small. change (Z.of_nat 4 * 8) with 32. lia. }
  assert (Hkeep : forall off n, 0 <= off -> 0 <= n ->
            off + n <= 16 \/ 20 <= off -> off + n <= len buf - eocdOffset z ->
            le_at new (eo' + off) n = le_at buf (eocdOffset z + off) n).
  { intros off n Hoff Hn Hwhere Hend. unfold le_at. subst new eo' ip.
    rewrite spliced_in_eocd by (assumption || lia).
    destruct Hwhere; [rewrite patched_eocd_before by lia
                     |rewrite patched_eocd_after by lia];
      rewrite sub_sub by lia; by rewrite Hraw. }
  assert (Hcorr : corroborated new i).
  { unfold corroborated, has_eocd_magic, declared_comment_len, declared_cd.
    rewrite Heo', Hfield.
    split; [|split; [|split]].
    - rewrite <- (Z.add_0_r eo'), Hkeep by lia. by rewrite Z.add_0_r.
    - rewrite Hkeep by lia. exact Hecho.
    - lia.
    - unfold le_at. subst new ip P. rewrite spliced_cd_magic by assumption.
      rewrite Hraw. exact Hcdmagic. }
  assert (Hadj' : adjacent new i).
  { unfold adjacent, declared_cd, declared_cd_len. rewrite Heo', Hfield.
    rewrite Hkeep by lia. subst eo'. lia. }
  rewrite (NewApkSign_accepts zr new i names);
    [|lia|lia|rewrite Hnew; unfold eocd_at in Heo; lia| |assumption|assumption
     |assumption].
  2:{ intros j Hj. apply Hpass. rewrite Heo. unfold eocd_at. lia. }
  unfold declared_cd. rewrite Heo', Hfield.
  assert (Hin_block : forall off n, 0 <= off -> 0 <= n -> off + n <= len P ->
            sub new (ip + off) n = sub P off n).
  { intros. subst new ip. by apply spliced_in_data. }
  rewrite (block_outcome_signed new (is_apk names) (ip + len P) eo'
             (len inner + 24)).
  - do 3 f_equal.
    + replace (ip + len P - (len inner + 24) - 8) with ip by lia.
      apply Z.ltb_lt. exact Hip.
    + lia.
    + replace (ip + len P - (len inner + 24)) with (ip + 8) by lia.
      replace (len inner + 24 - 24) with (len inner) by lia.
      rewrite Hin_block by lia. apply block_inner.
  - lia.
  - lia.
  - replace (ip + len P - 16) with (ip + (len inner + 16)) by lia.
    rewrite Hin_block by lia. apply block_magic.
  - unfold le_at.
    replace (ip + len P - 24) with (ip + (len inner + 8)) by lia.
    rewrite Hin_block by lia. apply block_trailing_size. lia.
  - lia.
  - unfold maxAlloc. lia.
  - unfold le_at.
    replace (ip + len P - (len inner + 24) - 8) with (ip + 0) by lia.
    rewrite Hin_block by lia. apply block_leading_size. lia.
Qed.

(** C5 as stated fails: after a block whose content is the CD magic is
    injected into [spoofed_archive], the header in the comment declares a CD
    offset that now holds the CD magic, and locate fails at that window. *)
Lemma inject_then_locate_counterexample :
  NewApkSign no_entries spoofed_archive
    = ret (Descriptor (located spoofed_archive false 16 20)) /\
  InjectBeforeCD (located spoofed_archive false 16 20)
      (signing_block_of cd_stub)
    = ret (spliced (located spoofed_archive false 16 20)
             (signing_block_of cd_stub)) /\
  NewApkSign no_entries
      (spliced (located spoofed_archive false 16 20)
         (signing_block_of cd_stub))
    = ret (Failure ErrCDNotAdjacent).
Proof. vm_compute. repeat split; reflexivity. Qed.

Lemma inject_then_locate_witness :
  NewApkSign no_entries
    (spliced signed_descriptor (signing_block_of ["002"%byte; "003"%byte]))
  = ret (Descriptor
           (mkApkSign false true
              (spliced signed_descriptor
                 (signing_block_of ["002"%byte; "003"%byte]))
              67 43 39 5 ["002"%byte; "003"%byte])).
Proof.
  apply (inject_then_locate no_entries signed_archive signed_descriptor
           ["002"%byte; "003"%byte] []).
  - vm_compute. reflexivity.
  - vm_compute. reflexivity.
  - vm_compute. discriminate.
  - vm_compute. reflexivity.
  - intros j Hj. change (len signed_archive - 22 - eocdOffset signed_descriptor)
      with 2 in Hj.
    assert (j = 0 \/ j = 1) as [->| ->] by lia;
      left; vm_compute; discriminate.
  - reflexivity.
Defined.

Lemma verify_unsigned_is_an_error_witness :
  VerifyV2 parse_any verify_any (fresh [])
    = (fresh [], Some ErrNotV2Signed) /\
  snd (VerifyV2 parse_any verify_any signed_descriptor)
    <> Some ErrNotV2Signed.
Proof.
  split.
  - apply (verify_unsigned_is_an_error parse_any verify_any (fresh [])).
    reflexivity.
  - apply (verify_unsigned_is_an_error parse_any verify_any signed_descriptor).
    reflexivity.
Defined.

(** * Further properties of the code *)

(** ** More on the locator: which failure, and when *)

Lemma block_outcome_no_failure buf apk cd e err :
  block_outcome buf apk cd e <> ret (Failure err).
Proof.
  unfold block_outcome.
  repeat match goal with
         | |- context [if ?b then _ else _] => destruct b
         end; discriminate.
Qed.

Lemma NewApkSign_failure_inv zr buf e :
  len buf < 2 ^ 63 -> NewApkSign zr buf = ret (Failure e) ->
  (e = ErrTooSmall /\ len buf < 22) \/
  (e = ErrNotAZip /\ 22 + 65534 <= len buf /\
   forall j, 0 <= j < 65535 -> passed_over buf j) \/
  (exists i, reached buf i /\ corroborated buf i /\
     ((e = ErrCDNotAdjacent /\ ~ adjacent buf i) \/
      (exists msg, e = ErrCollaborator msg /\ adjacent buf i /\
                   zr buf (len buf) = inl msg))).
Proof.
  intros Hlen H. rewrite NewApkSign_eq in H by assumption.
  destruct (Z.ltb_spec (len buf) 22) as [Hs|Hs].
  { left. by injection H as <-. }
  right.
  apply scan_inv in H; [|lia|rewrite scan_iterations_eq; lia].
  rewrite scan_iterations_eq in H.
  destruct H as [[H Hall]|(i & Hi & Hbefore & [(r & Hat & Hr)|(p & _ & Hp)])];
    [| |discriminate].
  - left. injection H as <-. split; [reflexivity|].
    assert (22 + 65534 <= len buf) as Hlong.
    { destruct (Z.le_gt_cases (22 + 65534) (len buf)) as [|Hshort];
        [assumption|].
      specialize (Hall (len buf - 21) ltac:(lia)).
      rewrite scan_body_short in Hall by lia. discriminate. }
    split; [exact Hlong|].
    intros j Hj. apply (window_continue_inv zr).
    rewrite <- scan_body_eq by lia. apply Hall. lia.
  - right. injection Hr as <-.
    assert (22 + i <= len buf) as Hw.
    { destruct (Z.le_gt_cases (22 + i) (len buf)) as [|Hshort]; [assumption|].
      rewrite scan_body_short in Hat by lia. discriminate. }
    rewrite scan_body_eq in Hat by lia.
    pose proof (window_returns zr buf i _ ltac:(lia) Hw Hat) as Hc.
    rewrite window_corroborated in Hat by assumption.
    exists i. split; [|split; [exact Hc|]].
    { split; [lia|]. split; [lia|].
      intros j Hj. apply (window_continue_inv zr).
      rewrite <- scan_body_eq by lia. apply Hbefore. lia. }
    destruct (Z.eqb_spec (declared_cd buf i + declared_cd_len buf i)
                (eocd_at buf i)) as [Hadj|Hadj]; cbn [negb] in Hat.
    + right. destruct (zr buf (len buf)) as [msg|names] eqn:Hzr.
      * exists msg. injection Hat as <-. by repeat split.
      * exfalso.
        destruct (block_outcome buf (is_apk names) (declared_cd buf i)
                    (eocd_at buf i)) as [r|p] eqn:Hb; [|discriminate].
        rewrite bind_ret in Hat. injection Hat as ->.
        by apply block_outcome_no_failure in Hb.
    + left. injection Hat as <-. by split.
Qed.

(** X1.  [NewApkSign] answers "input is too small to be a zip" exactly on
    buffers shorter than 22 bytes. *)
Theorem too_small_iff zr buf :
  len buf < 2 ^ 63 ->
  (NewApkSign zr buf = ret (Failure ErrTooSmall) <-> len buf < 22).
Proof.
  intros Hlen. split.
  - intros H.
    destruct (NewApkSign_failure_inv _ _ _ Hlen H)
      as [[_ ?]|[[? _]|(i & _ & _ & [[? _]|(msg & ? & _)])]];
      (assumption || discriminate).
  - intros Hs. rewrite NewApkSign_eq by assumption.
    destruct (Z.ltb_spec (len buf) 22); [reflexivity|lia].
Qed.

(** X2.  [NewApkSign] answers "input is not a zip" exactly when the buffer
    can hold 65534 comment bytes and all 65535 windows are passed over. *)
Theorem not_a_zip_iff zr buf :
  len buf < 2 ^ 63 ->
  (NewApkSign zr buf = ret (Failure ErrNotAZip) <->
   22 + 65534 <= len buf /\ forall j, 0 <= j < 65535 -> passed_over buf j).
Proof.
  intros Hlen. split.
  - intros H.
    destruct (NewApkSign_failure_inv _ _ _ Hlen H)
      as [[? _]|[[_ ?]|(i & _ & _ & [[? _]|(msg & ? & _)])]];
      (assumption || discriminate).
  - intros [Hlong Hp]. by apply scan_exhausted.
Qed.

(** X3.  [NewApkSign] answers "CD not adjacent to EOCD" exactly when the
    scan reaches a corroborated window that is not adjacent to its CD. *)
Theorem cd_not_adjacent_iff zr buf :
  len buf < 2 ^ 63 ->
  (NewApkSign zr buf = ret (Failure ErrCDNotAdjacent) <->
   exists i, reached buf i /\ corroborated buf i /\ ~ adjacent buf i).
Proof.
  intros Hlen. split.
  - intros H.
    destruct (NewApkSign_failure_inv _ _ _ Hlen H)
      as [[? _]|[[? _]|(i & Hr & Hc & [[_ ?]|(msg & ? & _)])]];
      try discriminate.
    by exists i.
  - intros (i & (Hi & Hw & Hp) & Hc & Hadj).
    apply NewApkSign_reaches with (i := i); try assumption.
    rewrite window_corroborated by assumption.
    destruct (Z.eqb_spec (declared_cd buf i + declared_cd_len buf i)
                (eocd_at buf i)); [contradiction|reflexivity].
Qed.

(** X4.  The error of [zip.NewReader] is returned, as it is, exactly when
    the scan reaches a corroborated and adjacent window and the reader fails
    with it. *)
Theorem reader_error_iff zr buf msg :
  len buf < 2 ^ 63 ->
  (NewApkSign zr buf = ret (Failure (ErrCollaborator msg)) <->
   zr buf (len buf) = inl msg /\
   exists i, reached buf i /\ corroborated buf i /\ adjacent buf i).
Proof.
  intros Hlen. split.
  - intros H.
    destruct (NewApkSign_failure_inv _ _ _ Hlen H)
      as [[? _]|[[? _]|(i & Hr & Hc & [[? _]|(msg' & Hm & Hadj & Hzr)])]];
      try discriminate.
    injection Hm as ->. split; [assumption|]. by exists i.
  - intros (Hzr & i & (Hi & Hw & Hp) & Hc & Hadj).
    apply NewApkSign_reaches with (i := i); try assumption.
    rewrite window_corroborated by assumption.
    rewrite Hadj, Z.eqb_refl, Hzr. reflexivity.
Qed.

(** ** More on the locator: the descriptor it returns *)

Lemma corroborated_not_passed_over buf i :
  corroborated buf i -> ~ passed_over buf i.
Proof. intros (Hm & He & Hr & Hcd) [Hn|[Hn|[_ Hn]]]; contradiction. Qed.

(** X5.  What the offsets of a returned descriptor point at: the EOCD
    magic, an echoed comment length, the declared CD with its magic right in
    front of the EOCD and not before offset 16; and no window nearer to the
    end of the buffer is corroborated. *)
Theorem located_descriptor_wellformed zr buf z :
  len buf < 2 ^ 63 -> NewApkSign zr buf = ret (Descriptor z) ->
  raw z = buf /\ size z = len buf /\
  16 <= cdOffset z /\ cdOffset z + 4 <= len buf /\
  cdOffset z <= eocdOffset z /\ eocdOffset z + 22 <= len buf /\
  len buf - (eocdOffset z + 22) < 65535 /\
  le_at buf (eocdOffset z) 4 = EOCD_MAGIC /\
  le_at buf (eocdOffset z + 20) 2 = len buf - (eocdOffset z + 22) /\
  le_at buf (eocdOffset z + 16) 4 = cdOffset z /\
  cdOffset z + le_at buf (eocdOffset z + 12) 4 = eocdOffset z /\
  le_at buf (cdOffset z) 4 = CD_MAGIC /\
  (forall j, 0 <= j < len buf - (eocdOffset z + 22) -> ~ corroborated buf j).
Proof.
  intros Hlen H.
  destruct (NewApkSign_descriptor_inv _ _ _ Hlen H)
    as (i & names & Hi & Hw & Hp & Hc & Hadj & _ & Hb).
  destruct (block_outcome_inv _ _ _ _ _ Hlen Hb)
    as (Hcd & _ & Hraw & Hsize & Heo & Hcdz & _).
  destruct Hc as (Hm & He & Hr & Hcm).
  unfold has_eocd_magic, declared_comment_len, adjacent, declared_cd_len in *.
  assert (0 <= le_at buf (eocd_at buf i + 12) 4) as Hcl.
  { unfold eocd_at. apply (le_at_bound _ _ 4); lia. }
  rewrite Heo, Hcdz. unfold eocd_at in *.
  repeat (split; [first [assumption | reflexivity | lia]|]).
  intros j Hj Hcj. apply (corroborated_not_passed_over _ _ Hcj).
  apply Hp. lia.
Qed.

(** X6.  In a returned descriptor [IsV2Signed] is [asv2Offset > 0], and a
    block that is recorded ends at the CD and spans at least 32 bytes. *)
Theorem flag_follows_offset zr buf z :
  len buf < 2 ^ 63 -> NewApkSign zr buf = ret (Descriptor z) ->
  IsV2Signed z = (0 <? asv2Offset z) /\
  (asv2Offset z = 0 \/ 0 <= asv2Offset z <= cdOffset z - 32) /\
  (IsV2Signed z = false -> asv2Offset z = 0).
Proof.
  intros Hlen H.
  destruct (NewApkSign_descriptor_inv _ _ _ Hlen H)
    as (i & names & _ & _ & _ & _ & _ & _ & Hb).
  destruct (block_outcome_inv _ _ _ _ _ Hlen Hb)
    as (Hcd & _ & _ & _ & _ & Hcdz & Hcases).
  destruct Hcases as [[_ ->]|(_ & _ & Hcases)];
    [cbn; repeat split; auto|].
  cbv zeta in Hcases.
  destruct Hcases
    as (Ha & _ & [[_ ->]|(_ & Hpost & Haeq & Hv & Hoff & _)]);
    [cbn; repeat split; auto|].
  rewrite Hv, Hoff, Hcdz. split; [reflexivity|].
  split; [right; lia|].
  intros Hf. apply Z.ltb_ge in Hf. lia.
Qed.

(** X7.  The payload of a signed descriptor is the content of the block, and
    the block ends where the CD starts. *)
Theorem payload_is_block_content zr buf z :
  len buf < 2 ^ 63 -> NewApkSign zr buf = ret (Descriptor z) ->
  IsV2Signed z = true ->
  let L := le_at buf (asv2Offset z) 8 in
  sub buf (cdOffset z - 16) 16 = APK_SIG_BLOCK_42 /\
  asv2Offset z + 8 + L = cdOffset z /\
  rawASv2 z = sub buf (asv2Offset z + 8) (L - 24).
Proof.
  intros Hlen H Hs.
  destruct (NewApkSign_descriptor_inv _ _ _ Hlen H)
    as (i & names & _ & _ & _ & _ & _ & _ & Hb).
  destruct (block_outcome_inv _ _ _ _ _ Hlen Hb)
    as (Hcd & _ & _ & _ & _ & Hcdz & Hcases).
  destruct Hcases as [[_ ->]|(Hm & _ & Hcases)]; [discriminate|].
  cbv zeta in Hcases.
  destruct Hcases
    as (Ha & _ & [[_ ->]|(Heq & Hpost & Haeq & Hv & Hoff & Hraw)]);
    [discriminate|].
  cbv zeta. rewrite Hoff, Hcdz, Hraw, Heq.
  split; [exact Hm|]. split; [lia|reflexivity].
Qed.

(** X8.  Without the magic in front of the CD the descriptor is unsigned. *)
Theorem no_magic_no_signature zr buf z :
  len buf < 2 ^ 63 -> NewApkSign zr buf = ret (Descriptor z) ->
  sub buf (cdOffset z - 16) 16 <> APK_SIG_BLOCK_42 ->
  IsV2Signed z = false /\ asv2Offset z = 0 /\ rawASv2 z = [].
Proof.
  intros Hlen H Hn.
  destruct (NewApkSign_descriptor_inv _ _ _ Hlen H)
    as (i & names & _ & _ & _ & _ & _ & _ & Hb).
  destruct (block_outcome_inv _ _ _ _ _ Hlen Hb)
    as (Hcd & _ & _ & _ & _ & Hcdz & Hcases).
  rewrite Hcdz in Hn.
  destruct Hcases as [[_ ->]|(Hm & _)]; [by cbn|contradiction].
Qed.

(** X9.  [Bytes] after [NewApkSign] is the input. *)
Theorem bytes_returns_input zr buf z :
  len buf < 2 ^ 63 -> NewApkSign zr buf = ret (Descriptor z) ->
  Bytes z = buf.
Proof.
  intros Hlen H.
  destruct (NewApkSign_descriptor_inv _ _ _ Hlen H)
    as (i & names & _ & _ & _ & _ & _ & _ & Hb).
  destruct (block_outcome_inv _ _ _ _ _ Hlen Hb)
    as (_ & _ & Hraw & _).
  unfold Bytes. rewrite Hraw. apply copy_fresh.
Qed.

(** *** The three names *)

Lemma visit_flags s name :
  hasClassesDex (visit s name)
    = hasClassesDex s || String.eqb name "classes.dex" /\
  hasAndroidManifestXML (visit s name)
    = hasAndroidManifestXML s || String.eqb name "AndroidManifest.xml" /\
  hasResourcesARSC (visit s name)
    = hasResourcesARSC s || String.eqb name "resources.arsc".
Proof.
  unfold visit.
  destruct (String.eqb_spec name "classes.dex") as [->|];
    [cbn; by rewrite !orb_true_r, !orb_false_r|].
  destruct (String.eqb_spec name "AndroidManifest.xml") as [->|];
    [cbn; by rewrite !orb_true_r, !orb_false_r|].
  destruct (String.eqb_spec name "resources.arsc") as [->|];
    cbn; by rewrite ?orb_true_r, ?orb_false_r.
Qed.

Lemma foldl_visit_flags names : forall s,
  hasClassesDex (foldl visit s names)
    = hasClassesDex s || existsb (fun n => String.eqb n "classes.dex") names /\
  hasAndroidManifestXML (foldl visit s names)
    = hasAndroidManifestXML s
      || existsb (fun n => String.eqb n "AndroidManifest.xml") names /\
  hasResourcesARSC (foldl visit s names)
    = hasResourcesARSC s
      || existsb (fun n => String.eqb n "resources.arsc") names.
Proof.
  induction names as [|n names IH]; intros s.
  - cbn. by rewrite !orb_false_r.
  - cbn [foldl existsb].
    destruct (IH (visit s n)) as (-> & -> & ->).
    destruct (visit_flags s n) as (-> & -> & ->).
    by rewrite !orb_assoc.
Qed.

Lemma existsb_eqb_In (x : string) names :
  existsb (fun n => String.eqb n x) names = true <-> In x names.
Proof.
  rewrite existsb_exists. split.
  - intros (n & Hin & Heq). apply String.eqb_eq in Heq. by subst.
  - intros Hin. exists x. split; [assumption|apply String.eqb_refl].
Qed.

Lemma is_apk_iff names :
  is_apk names = true <->
  In "classes.dex"%string names /\ In "AndroidManifest.xml"%string names /\
  In "resources.arsc"%string names.
Proof.
  unfold is_apk.
  destruct (foldl_visit_flags names (mkSeen false false false false false))
    as (-> & -> & ->).
  cbn [hasClassesDex hasAndroidManifestXML hasResourcesARSC orb].
  rewrite !andb_true_iff, !existsb_eqb_In. tauto.
Qed.

(** X10.  [IsAPK] says that the three names are among the entries, in any
    order. *)
Theorem located_is_apk zr buf z :
  len buf < 2 ^ 63 -> NewApkSign zr buf = ret (Descriptor z) ->
  exists names, zr buf (len buf) = inr names /\
    (IsAPK z = true <->
     In "classes.dex"%string names /\
     In "AndroidManifest.xml"%string names /\
     In "resources.arsc"%string names).
Proof.
  intros Hlen H.
  destruct (NewApkSign_descriptor_inv _ _ _ Hlen H)
    as (i & names & _ & _ & _ & _ & _ & Hzr & Hb).
  destruct (block_outcome_inv _ _ _ _ _ Hlen Hb) as (_ & Hapk & _).
  exists names. split; [assumption|]. rewrite Hapk. apply is_apk_iff.
Qed.

(** ** More on the locator: when it succeeds, and when it panics *)

Lemma declared_cd_range buf i :
  0 <= i -> 22 + i <= len buf -> 0 <= declared_cd buf i < 2 ^ 32.
Proof.
  intros. unfold declared_cd, eocd_at. apply (le_at_bound _ _ 4); lia.
Qed.

(** X11.  A well-formed archive without a signing block is located: the call
    returns the unsigned descriptor of the window the scan accepts. *)
Theorem locate_unsigned zr buf i names :
  len buf < 2 ^ 63 -> reached buf i ->
  corroborated buf i -> adjacent buf i ->
  zr buf (len buf) = inr names ->
  16 <= declared_cd buf i ->
  sub buf (declared_cd buf i - 16) 16 <> APK_SIG_BLOCK_42 ->
  NewApkSign zr buf =
    ret (Descriptor
           (mkApkSign (is_apk names) false buf (len buf) (eocd_at buf i)
              (declared_cd buf i) 0 [])).
Proof.
  intros Hlen (Hi & Hw & Hp) Hc Hadj Hzr Hcd Hn.
  rewrite (NewApkSign_accepts zr buf i names) by assumption.
  pose proof Hc as (_ & _ & Hr & _).
  unfold block_outcome.
  destruct (Z.ltb_spec (declared_cd buf i) 16); [lia|].
  destruct (Z.ltb_spec (len buf) (declared_cd buf i)); [lia|]. cbn [orb].
  rewrite bool_decide_false by assumption. reflexivity.
Qed.

(** X12.  A well-formed archive with a size-matched signing block is located,
    with the offset and the content of the block. *)
Theorem locate_signed zr buf i names :
  len buf < 2 ^ 63 -> reached buf i ->
  corroborated buf i -> adjacent buf i ->
  zr buf (len buf) = inr names ->
  let cd := declared_cd buf i in
  let L := le_at buf (cd - 24) 8 in
  sub buf (cd - 16) 16 = APK_SIG_BLOCK_42 ->
  24 <= L <= cd - 8 ->
  le_at buf (cd - L - 8) 8 = L ->
  NewApkSign zr buf =
    ret (Descriptor
           (mkApkSign (is_apk names) (0 <? cd - L - 8) buf (len buf)
              (eocd_at buf i) cd (cd - L - 8)
              (sub buf (cd - L) (L - 24)))).
Proof.
  intros Hlen (Hi & Hw & Hp) Hc Hadj Hzr cd L Hm HL Hpre.
  rewrite (NewApkSign_accepts zr buf i names) by assumption.
  pose proof Hc as (_ & _ & Hr & _).
  pose proof (declared_cd_range buf i ltac:(lia) Hw) as Hcd. fold cd in Hcd, Hr.
  apply block_outcome_signed; try (assumption || reflexivity || lia).
  unfold maxAlloc. lia.
Qed.

(** X13.  Size fields that differ are no error: the unsigned descriptor is
    returned. *)
Theorem locate_size_mismatch zr buf i names :
  len buf < 2 ^ 63 -> reached buf i ->
  corroborated buf i -> adjacent buf i ->
  zr buf (len buf) = inr names ->
  let cd := declared_cd buf i in
  let postSize := le_at buf (cd - 24) 8 in
  let start := uint64 (cd - postSize - 8) in
  sub buf (cd - 16) 16 = APK_SIG_BLOCK_42 -> 24 <= cd ->
  start + 8 <= len buf ->
  le_at buf start 8 <> postSize ->
  NewApkSign zr buf =
    ret (Descriptor
           (mkApkSign (is_apk names) false buf (len buf) (eocd_at buf i)
              cd 0 [])).
Proof.
  intros Hlen (Hi & Hw & Hp) Hc Hadj Hzr cd post start Hm Hcd24 Hst Hne.
  rewrite (NewApkSign_accepts zr buf i names) by assumption.
  pose proof Hc as (_ & _ & Hr & _). fold cd in Hr.
  unfold block_outcome. fold cd.
  destruct (Z.ltb_spec cd 16); [lia|].
  destruct (Z.ltb_spec (len buf) cd); [lia|]. cbn [orb].
  rewrite bool_decide_true by assumption. cbn [negb].
  destruct (Z.ltb_spec cd 24); [lia|].
  cbv zeta. fold post. fold start.
  destruct (Z.leb_spec (2 ^ 63) start); [lia|].
  destruct (Z.ltb_spec (len buf) (start + 8)); [lia|]. cbn [orb].
  destruct (Z.eqb_spec (le_at buf start 8) post); [contradiction|].
  reflexivity.
Qed.

(** The panics of the locator, whatever the buffer. *)

(** X14.  A window with the magic and the echoed comment length whose
    declared CD offset leaves fewer than four bytes makes [NewApkSign]
    panic. *)
Theorem unreadable_cd_offset_panics zr buf i :
  len buf < 2 ^ 63 -> reached buf i ->
  has_eocd_magic buf i -> declared_comment_len buf i = i ->
  len buf < declared_cd buf i + 4 ->
  NewApkSign zr buf =
    panic (if len buf <? declared_cd buf i
           then SliceBoundsOutOfRange else IndexOutOfRange).
Proof.
  intros Hlen (Hi & Hw & Hp) Hm He Hcd.
  rewrite NewApkSign_eq by assumption.
  destruct (Z.ltb_spec (len buf) 22); [lia|].
  rewrite (scan_reaches zr buf i) by (assumption || lia).
  replace (Z.to_nat (65535 - i)) with (S (Z.to_nat (65534 - i))) by lia.
  cbn [scan]. rewrite scan_body_eq by lia.
  unfold window_outcome. unfold has_eocd_magic, declared_comment_len,
    declared_cd, eocd_at in *.
  rewrite Hm, He, !Z.eqb_refl. cbn [negb].
  destruct (Z.ltb_spec (len buf) (le_at buf (len buf - 22 - i + 16) 4));
    [reflexivity|].
  destruct (Z.ltb_spec (len buf) (le_at buf (len buf - 22 - i + 16) 4 + 4));
    [reflexivity|lia].
Qed.

(** X15.  A CD that starts before offset 16 makes [NewApkSign] panic once the
    reader has accepted the archive. *)
Theorem cd_before_16_panics zr buf i names :
  len buf < 2 ^ 63 -> reached buf i ->
  corroborated buf i -> adjacent buf i ->
  zr buf (len buf) = inr names ->
  declared_cd buf i < 16 ->
  NewApkSign zr buf = panic SliceBoundsOutOfRange.
Proof.
  intros Hlen (Hi & Hw & Hp) Hc Hadj Hzr Hcd.
  rewrite (NewApkSign_accepts zr buf i names) by assumption.
  unfold block_outcome.
  destruct (Z.ltb_spec (declared_cd buf i) 16); [reflexivity|lia].
Qed.

(** X16.  Equal size fields below 24 make [NewApkSign] panic in [make]. *)
Theorem undersized_block_panics zr buf i names :
  len buf < 2 ^ 63 -> reached buf i ->
  corroborated buf i -> adjacent buf i ->
  zr buf (len buf) = inr names ->
  let cd := declared_cd buf i in
  let L := le_at buf (cd - 24) 8 in
  sub buf (cd - 16) 16 = APK_SIG_BLOCK_42 -> 24 <= cd ->
  L < 24 -> L <= cd - 8 ->
  le_at buf (cd - L - 8) 8 = L ->
  NewApkSign zr buf = panic MakesliceLenOutOfRange.
Proof.
  intros Hlen (Hi & Hw & Hp) Hc Hadj Hzr cd L Hm Hcd24 HL HL' Hpre.
  rewrite (NewApkSign_accepts zr buf i names) by assumption.
  pose proof Hc as (_ & _ & Hr & _). fold cd in Hr.
  pose proof (le_at_bound buf (cd - 24) 8 ltac:(lia) ltac:(lia) ltac:(lia))
    as HLr. fold L in HLr.
  unfold block_outcome. fold cd.
  destruct (Z.ltb_spec cd 16); [lia|].
  destruct (Z.ltb_spec (len buf) cd); [lia|]. cbn [orb].
  rewrite bool_decide_true by assumption. cbn [negb].
  destruct (Z.ltb_spec cd 24); [lia|].
  cbv zeta. fold L. rewrite (uint64_small (cd - L - 8)) by lia.
  destruct (Z.leb_spec (2 ^ 63) (cd - L - 8)); [lia|].
  destruct (Z.ltb_spec (len buf) (cd - L - 8 + 8)); [lia|]. cbn [orb].
  rewrite Hpre, Z.eqb_refl.
  destruct (Z.ltb_spec L 24); [reflexivity|lia].
Qed.

(** ** More on the injector *)

Lemma sub_join s a n m :
  0 <= a -> 0 <= n -> 0 <= m -> a + n + m <= len s ->
  sub s a n ++ sub s (a + n) m = sub s a (n + m).
Proof.
  intros. unfold sub, len in *.
  replace (Z.to_nat (a + n)) with (Z.to_nat a + Z.to_nat n)%nat by lia.
  rewrite <- drop_drop.
  replace (Z.to_nat (n + m)) with (Z.to_nat n + Z.to_nat m)%nat by lia.
  apply take_take_drop.
Qed.

Lemma sub_join0 s n m k :
  0 <= n -> 0 <= m -> n + m <= len s -> k = n + m ->
  sub s 0 n ++ sub s n m = sub s 0 k.
Proof.
  intros ? ? ? ->. rewrite <- (sub_join s 0 n m) by lia.
  by rewrite Z.add_0_l.
Qed.

Lemma patched_eocd_same block v :
  20 <= len block -> le_at block 16 4 = v -> patched_eocd block v = block.
Proof.
  intros Hl Hv. unfold patched_eocd. subst v. unfold le_at.
  rewrite split_le_combine' by (rewrite length_sub; lia).
  change (take 16 block) with (sub block 0 16).
  assert (drop 20 block = sub block 20 (len block - 20)) as ->.
  { unfold sub. rewrite take_ge; [reflexivity|].
    rewrite length_drop. unfold len. lia. }
  change 20 with (16 + 4) at 1. rewrite (sub_join block 16 4) by lia.
  rewrite (sub_join0 block 16 _ (len block)) by lia.
  apply sub_all.
Qed.

Lemma patched_eocd_twice block v w :
  20 <= len block ->
  patched_eocd (patched_eocd block v) w = patched_eocd block w.
Proof.
  intros Hl. unfold patched_eocd at 1 3.
  assert (take 16 (patched_eocd block v) = take 16 block) as ->.
  { unfold patched_eocd. rewrite take_app_le
      by (rewrite length_take; unfold len in Hl; lia).
    rewrite take_take. f_equal. }
  assert (drop 20 (patched_eocd block v) = drop 20 block) as ->.
  { unfold patched_eocd. rewrite app_assoc.
    rewrite drop_app_ge; rewrite length_app, length_take, length_le_split;
      unfold len in Hl; [|lia].
    replace (20 - (16 `min` length block + 4))%nat with 0%nat by lia.
    rewrite drop_drop. f_equal. }
  reflexivity.
Qed.

(** X17.  Injecting what is already between the insertion point and the CD
    gives the archive back; for an archive without a block that is the
    empty payload. *)
Theorem reinjecting_the_block_is_identity zr buf z :
  len buf < 2 ^ 63 -> NewApkSign zr buf = ret (Descriptor z) ->
  2 * len buf <= maxAlloc ->
  let ip := insertion_point z in
  InjectBeforeCD z (sub buf ip (cdOffset z - ip)) = ret buf /\
  (asv2Offset z = 0 -> InjectBeforeCD z [] = ret buf).
Proof.
  intros Hlen H Halloc ip.
  destruct (located_valid _ _ _ Hlen H)
    as (Hv & Hraw & Hip & i & Hi & Heo & Hcd & Hc & Hadj).
  pose proof (ip_range z Hv) as Hipr. fold ip in Hip, Hipr.
  pose proof Hv as (Hsize & Hasv2 & Hcdeo & Heocd).
  rewrite Hraw in *.
  assert (Hmain : InjectBeforeCD z (sub buf ip (cdOffset z - ip)) = ret buf).
  { assert (Hld : len (sub buf ip (cdOffset z - ip)) = cdOffset z - ip)
      by (apply len_sub; lia).
    rewrite InjectBeforeCD_eq; [|assumption|rewrite Hraw, Hld; lia].
    f_equal. unfold spliced. fold ip. rewrite Hraw, Hld.
    replace (ip + (cdOffset z - ip)) with (cdOffset z) by lia.
    rewrite patched_eocd_same.
    - rewrite (app_assoc (sub buf 0 ip)),
        (sub_join0 buf ip _ (cdOffset z)) by lia.
      rewrite (app_assoc (sub buf 0 _)),
        (sub_join0 buf (cdOffset z) _ (eocdOffset z)) by lia.
      rewrite (sub_join0 buf (eocdOffset z) _ (len buf)) by lia.
      apply sub_all.
    - rewrite len_sub; lia.
    - unfold le_at. rewrite sub_sub by lia.
      rewrite Hcd, Heo. reflexivity. }
  split; [exact Hmain|].
  intros Hz. subst ip. unfold insertion_point in Hmain. rewrite Hz in Hmain.
  cbn [Z.ltb Z.compare] in Hmain. rewrite Z.sub_diag in Hmain.
  exact Hmain.
Qed.

(** X18.  Injecting into the descriptor of an injected archive replaces the
    first payload: the result is that of injecting into the original. *)
Theorem last_injection_wins z z' first second :
  valid_offsets z -> 0 < insertion_point z ->
  raw z' = spliced z first -> size z' = len (raw z') ->
  asv2Offset z' = insertion_point z ->
  cdOffset z' = insertion_point z + len first ->
  eocdOffset z' = cdOffset z' + (eocdOffset z - cdOffset z) ->
  len (raw z) + len first + len second <= maxAlloc ->
  InjectBeforeCD z' second = ret (spliced z second) /\
  InjectBeforeCD z' second = InjectBeforeCD z second.
Proof.
  intros Hv Hip Hraw' Hsize' Hasv2' Hcd' Heo' Halloc.
  pose proof (ip_range z Hv) as Hipr.
  pose proof Hv as (Hsize & Hasv2 & Hcdeo & Heocd).
  pose proof (len_nonneg first) as Hf. pose proof (len_nonneg second) as Hs.
  assert (Hlen' : len (raw z')
                  = insertion_point z + len first + (len (raw z) - cdOffset z))
    by (rewrite Hraw'; by apply len_spliced).
  assert (Hv' : valid_offsets z').
  { unfold valid_offsets. rewrite Hlen', Hasv2', Heo', Hcd'.
    repeat split; lia. }
  assert (Hip' : insertion_point z' = insertion_point z).
  { unfold insertion_point at 1. rewrite Hasv2'.
    destruct (Z.ltb_spec 0 (insertion_point z)); [reflexivity|lia]. }
  assert (Hblock : len (sub (raw z) (eocdOffset z)
                          (len (raw z) - eocdOffset z))
                   = len (raw z) - eocdOffset z) by (apply len_sub; lia).
  assert (A1 : sub (raw z') 0 (insertion_point z)
               = sub (raw z) 0 (insertion_point z)).
  { rewrite Hraw'. by apply spliced_prefix. }
  assert (A2 : sub (raw z') (cdOffset z') (eocdOffset z' - cdOffset z')
               = sub (raw z) (cdOffset z) (eocdOffset z - cdOffset z)).
  { rewrite Heo', Hcd', Hraw'.
    replace (insertion_point z + len first + (eocdOffset z - cdOffset z)
             - (insertion_point z + len first))
      with (eocdOffset z - cdOffset z) by lia.
    by apply spliced_cd. }
  assert (A3 : forall v,
             patched_eocd (sub (raw z') (eocdOffset z')
                             (len (raw z') - eocdOffset z')) v
             = patched_eocd (sub (raw z) (eocdOffset z)
                               (len (raw z) - eocdOffset z)) v).
  { intros v. rewrite Hlen', Heo', Hcd', Hraw'.
    rewrite <- (Z.add_0_r (_ + _ + (eocdOffset z - cdOffset z))) at 1.
    rewrite spliced_in_eocd by (assumption || lia).
    rewrite sub_whole by (rewrite len_patched_eocd; lia).
    apply patched_eocd_twice. lia. }
  assert (Heq : spliced z' second = spliced z second).
  { unfold spliced. rewrite Hip', A1, A2, A3. reflexivity. }
  assert (InjectBeforeCD z' second = ret (spliced z second)) as Hres.
  { rewrite InjectBeforeCD_eq; [by rewrite Heq|assumption|].
    unfold maxAlloc in *. rewrite Hlen'. lia. }
  split; [exact Hres|]. rewrite Hres. symmetry.
  apply InjectBeforeCD_eq; [assumption|]. unfold maxAlloc in *. lia.
Qed.


(** X20.  [InjectBeforeCD] panics when fewer than 20 bytes follow
    [eocdOffset], as in a zero-value descriptor. *)
Theorem short_eocd_block_panics z data :
  size z = len (raw z) -> len (raw z) <= maxAlloc ->
  0 <= eocdOffset z <= len (raw z) ->
  len (raw z) - eocdOffset z < 20 ->
  InjectBeforeCD z data =
    panic (if len (raw z) - eocdOffset z <? 16
           then SliceBoundsOutOfRange else IndexOutOfRange).
Proof.
  intros Hsize Halloc Heo Hshort. unfold maxAlloc in Halloc.
  unfold InjectBeforeCD.
  destruct (if 0 <? asv2Offset z then _ else _) as [e ns].
  rewrite Hsize.
  rewrite (int64_small (eocdOffset z)),
    (int64_small (len (raw z) - eocdOffset z)) by lia.
  rewrite (make_ok (len (raw z) - eocdOffset z)) by (unfold maxAlloc; lia).
  rewrite bind_ret. unfold slice_from.
  rewrite (slice_sub (raw z) (eocdOffset z) (len (raw z))) by lia.
  rewrite bind_ret.
  set (E := sub (raw z) (eocdOffset z) (len (raw z) - eocdOffset z)).
  assert (HE : len E = len (raw z) - eocdOffset z) by (apply len_sub; lia).
  rewrite copy_same_length
    by (rewrite length_replicate; subst E; by rewrite length_sub by lia).
  destruct (Z.ltb_spec (len (raw z) - eocdOffset z) 16).
  - rewrite (slice_panic E 16 (len E)) by lia. reflexivity.
  - rewrite (slice_sub E 16 (len E)) by lia. rewrite bind_ret.
    assert (length (sub E 16 (len E - 16)) < 4)%nat as Hl
      by (rewrite length_sub; lia).
    destruct (sub E 16 (len E - 16)) as [|b0 [|b1 [|b2 [|b3 r]]]];
      simpl in Hl; try lia; reflexivity.
Qed.

(** ** More on the extractor and the signer *)

(** X21.  [VerifyV2] returns nil exactly when the flag is set, the payload
    parses and the block verifies; a parse error is returned as it is. *)
Theorem verify_outcomes {V2Block : Type}
    (ParseV2Block : list byte -> string + V2Block)
    (Verify : V2Block -> ApkSign -> ApkSign * option string)
    (apkSign : ApkSign) :
  (snd (VerifyV2 ParseV2Block Verify apkSign) = None <->
   IsV2Signed apkSign = true /\
   exists v2, ParseV2Block (rawASv2 apkSign) = inr v2 /\
              snd (Verify v2 apkSign) = None) /\
  (forall msg, IsV2Signed apkSign = true ->
     ParseV2Block (rawASv2 apkSign) = inl msg ->
     VerifyV2 ParseV2Block Verify apkSign
     = (apkSign, Some (ErrCollaborator msg))).
Proof.
  unfold VerifyV2. split.
  - destruct (IsV2Signed apkSign); cbn [negb].
    2:{ split; [discriminate|]. intros [? _]. discriminate. }
    destruct (ParseV2Block (rawASv2 apkSign)) as [msg|v2].
    { split; [discriminate|]. intros (_ & v2 & ? & _). discriminate. }
    destruct (Verify v2 apkSign) as [z' [msg|]] eqn:Hv; cbn.
    + split; [discriminate|]. intros (_ & v & Hp & Hn).
      injection Hp as <-. rewrite Hv in Hn. discriminate.
    + split; [|reflexivity]. intros _. split; [reflexivity|].
      exists v2. split; [reflexivity|]. by rewrite Hv.
  - intros msg -> ->. reflexivity.
Qed.

Section SignerFacts.
Context {SigningCert : Type}.
Variable Resolve : SigningCert -> SigningCert * option string.
Variable Sign : ApkSign -> list SigningCert -> list byte * option string.

Lemma resolve_keys_all pre :
  Forall (fun sk => snd (Resolve sk) = None) pre ->
  resolve_keys Resolve pre = (map (fun sk => fst (Resolve sk)) pre, None).
Proof.
  induction 1 as [|sk pre Hsk _ IH]; [reflexivity|].
  cbn [resolve_keys map]. destruct (Resolve sk) as [sk' err].
  cbn in Hsk. subst err. rewrite IH. reflexivity.
Qed.

Lemma resolve_keys_stops pre sk sk' msg post :
  Forall (fun sk => snd (Resolve sk) = None) pre ->
  Resolve sk = (sk', Some msg) ->
  resolve_keys Resolve (pre ++ sk :: post)
  = (map (fun sk => fst (Resolve sk)) pre ++ sk' :: post, Some msg).
Proof.
  intros Hpre Hsk. induction Hpre as [|x pre Hx _ IH].
  - cbn [app resolve_keys map]. rewrite Hsk. reflexivity.
  - cbn [app resolve_keys map]. destruct (Resolve x) as [x' err].
    cbn in Hx. subst err. rewrite IH. reflexivity.
Qed.

(** X22.  [SignV2] returns the error of the first key that does not
    resolve; the keys behind it are left alone. *)
Theorem sign_stops_at_first_unresolved_key apkSign pre sk sk' msg post :
  Forall (fun sk => snd (Resolve sk) = None) pre ->
  Resolve sk = (sk', Some msg) ->
  SignV2 Resolve Sign apkSign (pre ++ sk :: post)
  = (map (fun sk => fst (Resolve sk)) pre ++ sk' :: post,
     ([], Some (ErrCollaborator msg))).
Proof.
  intros Hpre Hsk. unfold SignV2.
  rewrite (resolve_keys_stops pre sk sk' msg post Hpre Hsk). reflexivity.
Qed.

(** X23.  When all keys resolve, [SignV2] returns what [Sign] returns on
    the resolved keys. *)
Theorem sign_after_resolving_all apkSign keys :
  Forall (fun sk => snd (Resolve sk) = None) keys ->
  let keys' := map (fun sk => fst (Resolve sk)) keys in
  SignV2 Resolve Sign apkSign keys
  = (keys', (fst (Sign apkSign keys'),
             ErrCollaborator <$> snd (Sign apkSign keys'))).
Proof.
  intros Hall keys'. unfold SignV2. rewrite (resolve_keys_all keys Hall).
  fold keys'. destruct (Sign apkSign keys') as [out err]. reflexivity.
Qed.
End SignerFacts.

(** ** Instances *)

Ltac by_evaluation := vm_compute; repeat split; (reflexivity || discriminate).

Lemma reached_first buf : 22 <= len buf -> reached buf 0.
Proof. intros. split; [lia|]. split; [lia|]. intros j Hj. lia. Qed.

Lemma signed_archive_reached : reached signed_archive 2.
Proof.
  split; [lia|]. split; [by_evaluation|]. intros j Hj.
  assert (j = 0 \/ j = 1) as [->| ->] by lia; left; by_evaluation.
Qed.

Lemma too_small_iff_witness :
  NewApkSign no_entries [] = ret (Failure ErrTooSmall)
  <-> len (@nil byte) < 22.
Proof. apply (too_small_iff no_entries []). by_evaluation. Defined.

Lemma not_a_zip_iff_witness :
  NewApkSign no_entries longest_comment_archive = ret (Failure ErrNotAZip)
  <-> 22 + 65534 <= len longest_comment_archive /\
      forall j, 0 <= j < 65535 -> passed_over longest_comment_archive j.
Proof.
  apply (not_a_zip_iff no_entries longest_comment_archive).
  rewrite len_longest_comment_archive. lia.
Defined.

Lemma cd_not_adjacent_iff_witness :
  NewApkSign no_entries detached_archive = ret (Failure ErrCDNotAdjacent)
  <-> exists i, reached detached_archive i /\
                corroborated detached_archive i /\
                ~ adjacent detached_archive i.
Proof. apply (cd_not_adjacent_iff no_entries detached_archive). by_evaluation.
Defined.

Lemma reader_error_iff_witness :
  NewApkSign rejecting plain_archive
    = ret (Failure (ErrCollaborator "zip: not a valid zip file"))
  <-> rejecting plain_archive (len plain_archive)
        = inl "zip: not a valid zip file"%string /\
      exists i, reached plain_archive i /\ corroborated plain_archive i /\
                adjacent plain_archive i.
Proof.
  apply (reader_error_iff rejecting plain_archive). by_evaluation.
Defined.

Lemma located_descriptor_wellformed_witness :
  raw signed_descriptor = signed_archive /\
  size signed_descriptor = len signed_archive /\
  16 <= cdOffset signed_descriptor.
Proof.
  destruct (located_descriptor_wellformed no_entries signed_archive
              signed_descriptor) as (H1 & H2 & H3 & _);
    [by_evaluation|by_evaluation|].
  by repeat split.
Defined.

Lemma flag_follows_offset_witness :
  IsV2Signed signed_descriptor = (0 <? asv2Offset signed_descriptor).
Proof.
  apply (flag_follows_offset no_entries signed_archive signed_descriptor);
    by_evaluation.
Defined.

Lemma payload_is_block_content_witness :
  rawASv2 signed_descriptor
  = sub signed_archive (asv2Offset signed_descriptor + 8)
      (le_at signed_archive (asv2Offset signed_descriptor) 8 - 24).
Proof.
  apply (payload_is_block_content no_entries signed_archive
           signed_descriptor); by_evaluation.
Defined.

Lemma no_magic_no_signature_witness :
  IsV2Signed plain_descriptor = false /\ asv2Offset plain_descriptor = 0 /\
  rawASv2 plain_descriptor = [].
Proof.
  apply (no_magic_no_signature no_entries plain_archive plain_descriptor);
    by_evaluation.
Defined.

Lemma bytes_returns_input_witness : Bytes signed_descriptor = signed_archive.
Proof.
  apply (bytes_returns_input no_entries signed_archive signed_descriptor);
    by_evaluation.
Defined.

Lemma located_is_apk_witness :
  exists names, apk_entries plain_archive (len plain_archive) = inr names /\
    (IsAPK (located plain_archive true 16 20) = true <->
     In "classes.dex"%string names /\
     In "AndroidManifest.xml"%string names /\
     In "resources.arsc"%string names).
Proof.
  apply (located_is_apk apk_entries plain_archive); by_evaluation.
Defined.

Lemma locate_unsigned_witness :
  NewApkSign no_entries plain_archive = ret (Descriptor plain_descriptor).
Proof.
  apply (locate_unsigned no_entries plain_archive 0 []).
  - by_evaluation.
  - apply reached_first. by_evaluation.
  - by_evaluation.
  - by_evaluation.
  - reflexivity.
  - by_evaluation.
  - by_evaluation.
Defined.

Lemma locate_signed_witness :
  NewApkSign no_entries signed_archive = ret (Descriptor signed_descriptor).
Proof.
  apply (locate_signed no_entries signed_archive 2 []).
  - by_evaluation.
  - exact signed_archive_reached.
  - by_evaluation.
  - by_evaluation.
  - reflexivity.
  - by_evaluation.
  - by_evaluation.
  - by_evaluation.
Defined.

Lemma locate_size_mismatch_witness :
  NewApkSign no_entries mismatched_archive
  = ret (Descriptor (located mismatched_archive false 38 42)).
Proof.
  apply (locate_size_mismatch no_entries mismatched_archive 0 []).
  - by_evaluation.
  - apply reached_first. by_evaluation.
  - by_evaluation.
  - by_evaluation.
  - reflexivity.
  - by_evaluation.
  - by_evaluation.
  - by_evaluation.
  - by_evaluation.
Defined.

Lemma unreadable_cd_offset_panics_witness :
  NewApkSign no_entries (eocd_header 0 0xFFFFFFFF 0)
  = panic SliceBoundsOutOfRange.
Proof.
  apply (unreadable_cd_offset_panics no_entries (eocd_header 0 0xFFFFFFFF 0) 0).
  - by_evaluation.
  - apply reached_first. by_evaluation.
  - by_evaluation.
  - by_evaluation.
  - by_evaluation.
Defined.

Lemma cd_before_16_panics_witness :
  NewApkSign no_entries cd_at_zero = panic SliceBoundsOutOfRange.
Proof.
  apply (cd_before_16_panics no_entries cd_at_zero 0 []).
  - by_evaluation.
  - apply reached_first. by_evaluation.
  - by_evaluation.
  - by_evaluation.
  - reflexivity.
  - by_evaluation.
Defined.

Lemma undersized_block_panics_witness :
  NewApkSign no_entries undersized_block_archive
  = panic MakesliceLenOutOfRange.
Proof.
  apply (undersized_block_panics no_entries undersized_block_archive 0 []).
  - by_evaluation.
  - apply reached_first. by_evaluation.
  - by_evaluation.
  - by_evaluation.
  - reflexivity.
  - by_evaluation.
  - by_evaluation.
  - by_evaluation.
  - by_evaluation.
  - by_evaluation.
Defined.

Lemma reinjecting_the_block_is_identity_witness :
  InjectBeforeCD signed_descriptor (sub signed_archive 5 (38 - 5))
  = ret signed_archive.
Proof.
  apply (reinjecting_the_block_is_identity no_entries signed_archive
           signed_descriptor); by_evaluation.
Defined.

Lemma last_injection_wins_witness :
  InjectBeforeCD reinjected_descriptor ["009"%byte]
  = InjectBeforeCD signed_descriptor ["009"%byte].
Proof.
  apply (last_injection_wins signed_descriptor reinjected_descriptor
           (signing_block_of ["002"%byte; "003"%byte]) ["009"%byte]);
    by_evaluation.
Defined.


Lemma short_eocd_block_panics_witness :
  InjectBeforeCD (fresh []) ["009"%byte] = panic SliceBoundsOutOfRange.
Proof.
  apply (short_eocd_block_panics (fresh []) ["009"%byte]); by_evaluation.
Defined.

Lemma verify_outcomes_witness :
  VerifyV2 parse_none verify_any signed_descriptor
  = (signed_descriptor, Some (ErrCollaborator "malformed v2 block")).
Proof.
  apply (verify_outcomes parse_none verify_any signed_descriptor);
    reflexivity.
Defined.

Lemma sign_stops_at_first_unresolved_key_witness :
  SignV2 resolve_nonzero sign_count signed_descriptor [3; 0; 5]
  = ([6; 0; 5], ([], Some (ErrCollaborator "no key material"))).
Proof.
  apply (sign_stops_at_first_unresolved_key resolve_nonzero sign_count
           signed_descriptor [3] 0 0 "no key material" [5]).
  - repeat constructor.
  - reflexivity.
Defined.

Lemma sign_after_resolving_all_witness :
  SignV2 resolve_nonzero sign_count signed_descriptor [3; 5]
  = ([6; 10], (["001"%byte; "001"%byte], None)).
Proof.
  apply (sign_after_resolving_all resolve_nonzero sign_count
           signed_descriptor [3; 5]).
  repeat constructor.
Defined.
